(** * Assay CLI: credential resolution, expiration check and rate-limit retry

    A shallow embedding of [src/utils/apiClient.ts], [src/utils/config.ts],
    [src/utils/keychain.ts] and the request URLs of [src/commands/*.ts].

    JavaScript values are modelled as follows.
    - Strings are [string]s; a non-ASCII character is the sequence of its
      UTF-8 bytes.
    - Every number the modelled code computes is an integer or NaN
      (milliseconds, epoch seconds, counters), so a number is a [jsnum]:
      [NaN] or [Num z] with [z : Z].  Time values and their differences stay
      below 2^53, where IEEE doubles are exact; larger magnitudes only reach
      [Math.min]/[Math.max] against 60000 and 1000, which rounding cannot
      change.
    - Host state ([process.env], the file system, the OS key vault, the
      clock, the remote server) is a [World]; effectful code is a function
      [World -> Result A * World] that also records what it did in a trace. *)

From Stdlib Require Import ZArith String Ascii List Lia Bool DecimalString.
From stdpp Require Import base gmap strings list.

Local Open Scope string_scope.
Local Open Scope list_scope.
Local Open Scope Z_scope.

(** ** JavaScript primitives *)

Inductive jsnum : Type :=
| NaN
| Num (z : Z).

(** [Math.min] and [Math.max]: NaN if either argument is NaN. *)
Definition Math_min (a b : jsnum) : jsnum :=
  match a, b with
  | Num x, Num y => Num (Z.min x y)
  | _, _ => NaN
  end.

Definition Math_max (a b : jsnum) : jsnum :=
  match a, b with
  | Num x, Num y => Num (Z.max x y)
  | _, _ => NaN
  end.

Definition js_sub (a b : jsnum) : jsnum :=
  match a, b with
  | Num x, Num y => Num (x - y)
  | _, _ => NaN
  end.

Definition js_mul (a b : jsnum) : jsnum :=
  match a, b with
  | Num x, Num y => Num (x * y)
  | _, _ => NaN
  end.

(** [a <= b] and [a < b] on numbers: false as soon as one side is NaN. *)
Definition js_le (a b : jsnum) : bool :=
  match a, b with
  | Num x, Num y => x <=? y
  | _, _ => false
  end.

Definition js_lt (a b : jsnum) : bool :=
  match a, b with
  | Num x, Num y => x <? y
  | _, _ => false
  end.

(** [Math.floor(a / d)] and [Math.ceil(a / d)] for a positive integer [d]. *)
Definition floor_div (a : jsnum) (d : Z) : jsnum :=
  match a with
  | Num x => Num (x / d)
  | NaN => NaN
  end.

Definition ceil_div (a : jsnum) (d : Z) : jsnum :=
  match a with
  | Num x => Num (- ((- x) / d))
  | NaN => NaN
  end.

(** Truthiness of a string, and of a [string | undefined | null]. *)
Definition truthy (s : string) : bool :=
  match s with
  | EmptyString => false
  | String _ _ => true
  end.

Definition truthy_opt (o : option string) : bool :=
  match o with
  | Some s => truthy s
  | None => false
  end.

Definition Z_to_string (z : Z) : string :=
  DecimalString.NilZero.string_of_int (Z.to_int z).

(** Number-to-string conversion inside a template literal. *)
Definition jsnum_to_string (n : jsnum) : string :=
  match n with
  | NaN => "NaN"
  | Num z => Z_to_string z
  end.

(** *** [parseInt(string)] with no radix argument (ECMA-262, 19.2.5)

    Leading white space is skipped (the ASCII members of the class), an
    optional sign is read, a [0x]/[0X] prefix selects radix 16, and the
    longest prefix of digits is the value; with no digit the result is NaN. *)

Definition code (c : ascii) : Z := Z.of_N (N_of_ascii c).

Definition is_white_space (c : ascii) : bool :=
  let n := code c in
  ((9 <=? n) && (n <=? 13)) || (n =? 32).

Fixpoint trim_start (s : string) : string :=
  match s with
  | String c s' => if is_white_space c then trim_start s' else s
  | EmptyString => EmptyString
  end.

Definition digit_value (radix : Z) (c : ascii) : option Z :=
  let n := code c in
  let v :=
    if (48 <=? n) && (n <=? 57) then n - 48
    else if (97 <=? n) && (n <=? 122) then n - 87
    else if (65 <=? n) && (n <=? 90) then n - 55
    else radix in
  if v <? radix then Some v else None.

(** Value of the longest prefix of digits; [acc] is the value read so far
    ([None]: no digit yet). *)
Fixpoint parse_digits (radix : Z) (s : string) (acc : option Z) : option Z :=
  match s with
  | String c s' =>
      match digit_value radix c with
      | Some d => parse_digits radix s' (Some (radix * default 0 acc + d))
      | None => acc
      end
  | EmptyString => acc
  end.

Definition strip_hex_prefix (s : string) : option string :=
  match s with
  | String "0" (String "x" r) => Some r
  | String "0" (String "X" r) => Some r
  | _ => None
  end.

Definition parseInt (input : string) : jsnum :=
  let s := trim_start input in
  let '(sign, s) :=
    match s with
    | String "-" r => (-1, r)
    | String "+" r => (1, r)
    | _ => (1, s)
    end in
  let '(radix, s) :=
    match strip_hex_prefix s with
    | Some r => (16, r)
    | None => (10, s)
    end in
  match parse_digits radix s None with
  | Some v => Num (sign * v)
  | None => NaN
  end.

(** ** The host: requests, responses, errors, events and the world *)

(** An axios request configuration, with [__retryCount], the property the
    response interceptor stores on it ([None]: not set). *)
Record RequestConfig : Type := mkRequest {
  method : string;
  url : string;
  params : list (string * string);
  baseURL : string;
  timeout : Z;
  headers : gmap string string;
  retryCount : option Z
}.

(** An HTTP response; header names are in lower case, as axios gives them. *)
Record Response : Type := mkResponse {
  status : Z;
  response_headers : gmap string string;
  data : string
}.

(** What the network does with one request: a response, or a transport
    failure with its error code ([ECONNREFUSED], [ETIMEDOUT], ...). *)
Inductive Reply : Type :=
| Responded (r : Response)
| Failed (errcode : string).

Inductive Error : Type :=
| JsError (message : string)
| AxiosError (errcode : string) (config : RequestConfig) (response : option Response).

Definition error_message (e : Error) : string :=
  match e with
  | JsError m => m
  | AxiosError c _ (Some r) => "Request failed with status code " +:+ Z_to_string (status r)
  | AxiosError c _ None => c
  end.

Inductive Node : Type :=
| File (content : string)
| Dir.

(** What the program did to the outside, most recent event first. *)
Inductive Event : Type :=
| FsExists (path : string)
| FsRead (path : string)
| FsMkdir (path : string)
| FsWrite (path content : string)
| FsChmod (path : string) (mode : Z)
| KeytarGet (service account : string)
| KeytarSet (service account password : string)
| KeytarDelete (service account : string)
| HttpSend (request : RequestConfig)
| ConsoleWarn (message : string)
| SetTimeout (ms : jsnum).

Record World : Type := mkWorld {
  env : gmap string string;          (* process.env *)
  platform : string;                 (* process.platform *)
  homedir : string;                  (* os.homedir() *)
  fs : gmap string Node;             (* the file system, by path *)
  keytar : option (gmap (string * string) string);
                                     (* the OS vault; None: keytar calls throw *)
  keytarAvailable : option bool;     (* module variable of keychain.ts *)
  clock : nat -> Z;                  (* the successive readings of Date.now() *)
  ticks : nat;                       (* how many readings were taken *)
  Date_parse : string -> jsnum;      (* new Date(string).getTime() *)
  server : nat -> Reply;             (* the reply to the n-th request sent *)
  trace : list Event
}.

Definition set_fs (f : gmap string Node) (w : World) : World :=
  mkWorld (env w) (platform w) (homedir w) f (keytar w) (keytarAvailable w)
          (clock w) (ticks w) (Date_parse w) (server w) (trace w).

Definition set_keytar (k : option (gmap (string * string) string)) (w : World) : World :=
  mkWorld (env w) (platform w) (homedir w) (fs w) k (keytarAvailable w)
          (clock w) (ticks w) (Date_parse w) (server w) (trace w).

Definition set_keytarAvailable (a : option bool) (w : World) : World :=
  mkWorld (env w) (platform w) (homedir w) (fs w) (keytar w) a
          (clock w) (ticks w) (Date_parse w) (server w) (trace w).

Definition set_ticks (n : nat) (w : World) : World :=
  mkWorld (env w) (platform w) (homedir w) (fs w) (keytar w) (keytarAvailable w)
          (clock w) n (Date_parse w) (server w) (trace w).

Definition set_trace (t : list Event) (w : World) : World :=
  mkWorld (env w) (platform w) (homedir w) (fs w) (keytar w) (keytarAvailable w)
          (clock w) (ticks w) (Date_parse w) (server w) t.

(** *** Computations: state and exceptions *)

Inductive Result (A : Type) : Type :=
| Ok (a : A)
| Throw (e : Error).

Arguments Ok {A} a.
Arguments Throw {A} e.

Definition M (A : Type) : Type := World -> Result A * World.

Definition ret {A : Type} (a : A) : M A := fun w => (Ok a, w).

Definition throw {A : Type} (e : Error) : M A := fun w => (Throw e, w).

Definition bind {A B : Type} (m : M A) (k : A -> M B) : M B :=
  fun w =>
    match m w with
    | (Ok a, w') => k a w'
    | (Throw e, w') => (Throw e, w')
    end.

(** [try { m } catch (error) { h error }] *)
Definition try_catch {A : Type} (m : M A) (h : Error -> M A) : M A :=
  fun w =>
    match m w with
    | (Ok a, w') => (Ok a, w')
    | (Throw e, w') => h e w'
    end.

Definition read {A : Type} (f : World -> A) : M A := fun w => (Ok (f w), w).

Definition emit (e : Event) : M unit := fun w => (Ok tt, set_trace (e :: trace w) w).

Declare Scope js_scope.
Delimit Scope js_scope with js.
Notation "x <- m ;; k" := (bind m (fun x => k))
  (at level 100, m at next level, right associativity) : js_scope.
Notation "m ;; k" := (bind m (fun _ => k))
  (at level 100, right associativity) : js_scope.
Local Open Scope js_scope.

(** [Date.now()] *)
Definition Date_now : M Z :=
  fun w => (Ok (clock w (ticks w)), set_ticks (S (ticks w)) w).

(** [console.warn(message)] *)
Definition console_warn (message : string) : M unit := emit (ConsoleWarn message).

(** [await sleep(ms)]: a timer of [ms] milliseconds is awaited. *)
Definition sleep (ms : jsnum) : M unit := emit (SetTimeout ms).

(** *** The file system ([fs] of Node.js)

    Paths are plain keys.  Operations fail where the node at the path has
    the wrong kind; permissions and missing parent directories are not
    modelled. *)

Definition existsSync (path : string) : M bool :=
  emit (FsExists path) ;;
  f <- read fs ;;
  ret (bool_decide (is_Some (f !! path))).

Definition readFileSync (path : string) : M string :=
  emit (FsRead path) ;;
  f <- read fs ;;
  match f !! path with
  | Some (File content) => ret content
  | Some Dir => throw (JsError "EISDIR: illegal operation on a directory, read")
  | None => throw (JsError "ENOENT: no such file or directory")
  end.

Definition mkdirSync (path : string) : M unit :=
  emit (FsMkdir path) ;;
  f <- read fs ;;
  match f !! path with
  | Some (File _) => throw (JsError "EEXIST: file already exists")
  | Some Dir => ret tt
  | None => fun w => (Ok tt, set_fs (<[path := Dir]> f) w)
  end.

Definition writeFileSync (path content : string) : M unit :=
  emit (FsWrite path content) ;;
  f <- read fs ;;
  match f !! path with
  | Some Dir => throw (JsError "EISDIR: illegal operation on a directory, open")
  | _ => fun w => (Ok tt, set_fs (<[path := File content]> f) w)
  end.

(** [chmodSync]: the mode is not part of the modelled state, only the call
    is recorded; it fails on a missing path. *)
Definition chmodSync (path : string) (mode : Z) : M unit :=
  emit (FsChmod path mode) ;;
  f <- read fs ;;
  match f !! path with
  | Some _ => ret tt
  | None => throw (JsError "ENOENT: no such file or directory")
  end.

(** ** JSON

    [JSON.parse] and [JSON.stringify(value, null, 2)] (ECMA-262, 25.5).  A
    number is kept as the text of its literal and is not interpreted; the
    properties of an object are listed in the order of their creation. *)

#[warnings="-register-all"] Inductive JValue : Type :=
| JNull
| JBool (b : bool)
| JNumber (literal : string)
| JString (s : string)
| JArray (items : list JValue)
| JObject (props : list (string * JValue)).

Definition chr (n : Z) : ascii := ascii_of_N (Z.to_N n).

Definition dquote : ascii := chr 34.
Definition backslash : ascii := chr 92.
Definition newline : ascii := chr 10.

Definition str1 (c : ascii) : string := String c EmptyString.

(** *** Printing *)

Definition hex_digit (n : Z) : ascii := chr (if n <? 10 then 48 + n else 87 + n).

(** QuoteJSONString, one character at a time. *)
Definition quote_char (c : ascii) : string :=
  let n := code c in
  if n =? 34 then String backslash (str1 dquote)
  else if n =? 92 then "\\"
  else if n =? 8 then "\b"
  else if n =? 12 then "\f"
  else if n =? 10 then "\n"
  else if n =? 13 then "\r"
  else if n =? 9 then "\t"
  else if n <? 32 then "\u00" +:+ String (hex_digit (n / 16)) (str1 (hex_digit (n mod 16)))
  else str1 c.

Fixpoint quote_chars (s : string) : string :=
  match s with
  | EmptyString => EmptyString
  | String c r => quote_char c +:+ quote_chars r
  end.

Definition quote (s : string) : string :=
  String dquote (quote_chars s +:+ str1 dquote).

Fixpoint join (sep : string) (l : list string) : string :=
  match l with
  | [] => ""
  | [x] => x
  | x :: r => x +:+ sep +:+ join sep r
  end.

Definition gap : string := "  ".

Definition bracket (opening closing indent : string) (partial : list string) : string :=
  match partial with
  | [] => opening +:+ closing
  | _ =>
      let inner := indent +:+ gap in
      opening +:+ str1 newline +:+ inner
        +:+ join ("," +:+ str1 newline +:+ inner) partial
        +:+ str1 newline +:+ indent +:+ closing
  end.

(** SerializeJSONProperty with a gap of two spaces; [indent] is the
    indentation of the enclosing value. *)
Fixpoint serialize (indent : string) (v : JValue) : string :=
  match v with
  | JNull => "null"
  | JBool true => "true"
  | JBool false => "false"
  | JNumber literal => literal
  | JString s => quote s
  | JArray items =>
      bracket "[" "]" indent (map (serialize (indent +:+ gap)) items)
  | JObject props =>
      bracket "{" "}" indent
        (map (fun p => quote (fst p) +:+ ": " +:+ serialize (indent +:+ gap) (snd p)) props)
  end.

(** [JSON.stringify(value, null, 2)] *)
Definition JSON_stringify (v : JValue) : string := serialize "" v.

(** *** Parsing *)

Definition is_json_ws (c : ascii) : bool :=
  let n := code c in
  (n =? 32) || (n =? 9) || (n =? 10) || (n =? 13).

Fixpoint skip_ws (s : string) : string :=
  match s with
  | String c r => if is_json_ws c then skip_ws r else s
  | EmptyString => EmptyString
  end.

Definition hex4 (a b c d : ascii) : option Z :=
  x ← digit_value 16 a; y ← digit_value 16 b;
  z ← digit_value 16 c; t ← digit_value 16 d;
  Some (((x * 16 + y) * 16 + z) * 16 + t).

(** UTF-8 bytes of a code point (a lone surrogate is encoded like any other
    three-byte code point). *)
Definition utf8 (cp : Z) : string :=
  if cp <? 128 then str1 (chr cp)
  else if cp <? 2048 then
    String (chr (192 + cp / 64)) (str1 (chr (128 + cp mod 64)))
  else if cp <? 65536 then
    String (chr (224 + cp / 4096))
      (String (chr (128 + (cp / 64) mod 64)) (str1 (chr (128 + cp mod 64))))
  else
    String (chr (240 + cp / 262144))
      (String (chr (128 + (cp / 4096) mod 64))
         (String (chr (128 + (cp / 64) mod 64)) (str1 (chr (128 + cp mod 64))))).

Definition simple_escape (c : ascii) : option ascii :=
  let n := code c in
  if (n =? 34) || (n =? 92) || (n =? 47) then Some c
  else if n =? 98 then Some (chr 8)
  else if n =? 102 then Some (chr 12)
  else if n =? 110 then Some (chr 10)
  else if n =? 114 then Some (chr 13)
  else if n =? 116 then Some (chr 9)
  else None.

(** The low surrogate escape that may follow a high surrogate escape. *)
Definition low_surrogate (s : string) : option (Z * string) :=
  match s with
  | String b (String u (String h1 (String h2 (String h3 (String h4 r))))) =>
      if (code b =? 92) && (code u =? 117) then
        match hex4 h1 h2 h3 h4 with
        | Some lo => if (56320 <=? lo) && (lo <=? 57343) then Some (lo, r) else None
        | None => None
        end
      else None
  | _ => None
  end.

(** The characters of a string literal after its opening quote, up to and
    including the closing quote: the decoded string and the rest of the
    input. *)
Fixpoint parse_chars (s : string) : option (string * string) :=
  match s with
  | EmptyString => None
  | String c r =>
      if code c =? 34 then Some (EmptyString, r)
      else if code c =? 92 then
        match r with
        | String e r1 =>
            match simple_escape e with
            | Some ch =>
                match parse_chars r1 with
                | Some (t, rest) => Some (String ch t, rest)
                | None => None
                end
            | None =>
                if code e =? 117 then
                  match r1 with
                  | String h1 (String h2 (String h3 (String h4 r2))) =>
                      match hex4 h1 h2 h3 h4 with
                      | Some cu =>
                          match (if (55296 <=? cu) && (cu <=? 56319)
                                 then low_surrogate r2 else None) with
                          | Some (lo, _) =>
                              match r2 with
                              | String _ (String _ (String _ (String _ (String _ (String _ r3))))) =>
                                  match parse_chars r3 with
                                  | Some (t, rest) =>
                                      Some (utf8 (65536 + (cu - 55296) * 1024 + (lo - 56320)) +:+ t, rest)
                                  | None => None
                                  end
                              | _ => None
                              end
                          | None =>
                              match parse_chars r2 with
                              | Some (t, rest) => Some (utf8 cu +:+ t, rest)
                              | None => None
                              end
                          end
                      | None => None
                      end
                  | _ => None
                  end
                else None
            end
        | EmptyString => None
        end
      else if code c <? 32 then None
      else
        match parse_chars r with
        | Some (t, rest) => Some (String c t, rest)
        | None => None
        end
  end.

Definition is_digit (c : ascii) : bool := (48 <=? code c) && (code c <=? 57).

(** The longest prefix of decimal digits, and the rest. *)
Fixpoint span_digits (s : string) : string * string :=
  match s with
  | String c r =>
      if is_digit c then let '(d, rest) := span_digits r in (String c d, rest)
      else (EmptyString, s)
  | EmptyString => (EmptyString, EmptyString)
  end.

(** A number literal: an optional minus sign, an integer part (a single 0,
    or digits not starting with 0), an optional fraction (a dot and digits)
    and an optional exponent (e or E, an optional sign, digits). *)
Definition parse_number (s : string) : option (string * string) :=
  let '(sign, s1) :=
    match s with
    | String c r => if code c =? 45 then ("-", r) else ("", s)
    | EmptyString => ("", s)
    end in
  let '(int, s2) := span_digits s1 in
  match int with
  | EmptyString => None
  | String d ds =>
      if (code d =? 48) && truthy ds then None
      else
        let frac :=
          match s2 with
          | String c r =>
              if code c =? 46 then
                let '(f, r') := span_digits r in
                if truthy f then Some ("." +:+ f, r') else None
              else Some ("", s2)
          | EmptyString => Some ("", s2)
          end in
        match frac with
        | None => None
        | Some (f, s3) =>
            let expo :=
              match s3 with
              | String c r =>
                  if (code c =? 101) || (code c =? 69) then
                    let '(sg, r1) :=
                      match r with
                      | String c' r' =>
                          if (code c' =? 43) || (code c' =? 45) then (str1 c', r') else ("", r)
                      | EmptyString => ("", r)
                      end in
                    let '(e, r2) := span_digits r1 in
                    if truthy e then Some (str1 c +:+ sg +:+ e, r2) else None
                  else Some ("", s3)
              | EmptyString => Some ("", s3)
              end in
            match expo with
            | None => None
            | Some (e, s4) => Some (sign +:+ int +:+ f +:+ e, s4)
            end
        end
  end.

Fixpoint strip_prefix (p s : string) : option string :=
  match p, s with
  | EmptyString, _ => Some s
  | String a p', String b s' => if Ascii.eqb a b then strip_prefix p' s' else None
  | String _ _, EmptyString => None
  end.

(** CreateDataProperty on the object under construction: a repeated key
    keeps its place and takes the new value. *)
Fixpoint define_prop (k : string) (v : JValue) (props : list (string * JValue))
  : list (string * JValue) :=
  match props with
  | [] => [(k, v)]
  | (k', v') :: r =>
      if String.eqb k k' then (k, v) :: r else (k', v') :: define_prop k v r
  end.

(** The recursive-descent parser.  Each call is given one unit of fuel less
    than its caller.  A well-formed text closes every bracket it opens, so
    its length exceeds twice its nesting depth plus the number of its
    members and elements, which is all the fuel a parse can use; on any
    other text the result is [None] with or without fuel. *)
Fixpoint parse_value (fuel : nat) (s : string) : option (JValue * string) :=
  match fuel with
  | O => None
  | S n =>
      match skip_ws s with
      | EmptyString => None
      | String c r =>
          if code c =? 123 then
            match skip_ws r with
            | String c' r' =>
                if code c' =? 125 then Some (JObject [], r')
                else parse_members n r []
            | EmptyString => None
            end
          else if code c =? 91 then
            match skip_ws r with
            | String c' r' =>
                if code c' =? 93 then Some (JArray [], r')
                else parse_elements n r []
            | EmptyString => None
            end
          else if code c =? 34 then
            match parse_chars r with
            | Some (str, rest) => Some (JString str, rest)
            | None => None
            end
          else
            match strip_prefix "true" (String c r) with
            | Some rest => Some (JBool true, rest)
            | None =>
            match strip_prefix "false" (String c r) with
            | Some rest => Some (JBool false, rest)
            | None =>
            match strip_prefix "null" (String c r) with
            | Some rest => Some (JNull, rest)
            | None =>
            match parse_number (String c r) with
            | Some (literal, rest) => Some (JNumber literal, rest)
            | None => None
            end end end end
      end
  end

with parse_members (fuel : nat) (s : string) (acc : list (string * JValue))
  : option (JValue * string) :=
  match fuel with
  | O => None
  | S n =>
      match skip_ws s with
      | String q r =>
          if code q =? 34 then
            match parse_chars r with
            | Some (k, r1) =>
                match skip_ws r1 with
                | String colon r2 =>
                    if code colon =? 58 then
                      match parse_value n r2 with
                      | Some (v, r3) =>
                          match skip_ws r3 with
                          | String d r4 =>
                              if code d =? 44 then parse_members n r4 (define_prop k v acc)
                              else if code d =? 125 then Some (JObject (define_prop k v acc), r4)
                              else None
                          | EmptyString => None
                          end
                      | None => None
                      end
                    else None
                | EmptyString => None
                end
            | None => None
            end
          else None
      | EmptyString => None
      end
  end

with parse_elements (fuel : nat) (s : string) (acc : list JValue)
  : option (JValue * string) :=
  match fuel with
  | O => None
  | S n =>
      match parse_value n s with
      | Some (v, r1) =>
          match skip_ws r1 with
          | String d r2 =>
              if code d =? 44 then parse_elements n r2 (acc ++ [v])
              else if code d =? 93 then Some (JArray (acc ++ [v]), r2)
              else None
          | EmptyString => None
          end
      | None => None
      end
  end.

(** [JSON.parse(text)]; [None] stands for the SyntaxError it throws. *)
Definition JSON_parse (text : string) : option JValue :=
  match parse_value (S (String.length text)) text with
  | Some (v, rest) =>
      match skip_ws rest with
      | EmptyString => Some v
      | String _ _ => None
      end
  | None => None
  end.

(** ** [types/config.ts] *)

Inductive OutputFormat : Type := json | table | yaml.

Record Config : Type := mkConfig {
  keyId : option string;
  apiKeyExpiresAt : option string;
  baseUrl : string;
  outputFormat : OutputFormat
}.

Definition OutputFormat_string (f : OutputFormat) : string :=
  match f with
  | json => "json"
  | table => "table"
  | yaml => "yaml"
  end.

Definition optional_prop (name : string) (o : option string) : list (string * JValue) :=
  match o with
  | Some s => [(name, JString s)]
  | None => []
  end.

(** The JavaScript object that holds a [Config]: an optional property that
    is undefined is not an own property (and [JSON.stringify] would skip it
    anyway). *)
Definition Config_object (c : Config) : JValue :=
  JObject (optional_prop "keyId" (keyId c)
           ++ optional_prop "apiKeyExpiresAt" (apiKeyExpiresAt c)
           ++ [("baseUrl", JString (baseUrl c));
               ("outputFormat", JString (OutputFormat_string (outputFormat c)))]).

Fixpoint lookup_prop (name : string) (props : list (string * JValue)) : option JValue :=
  match props with
  | [] => None
  | (k, v) :: r => if String.eqb name k then Some v else lookup_prop name r
  end.

(** [config.name] read at the type the interface [Config] gives it, a
    string or undefined: the own property of an object when it holds a
    string.  A property of another JSON type is outside the interface and
    reads as undefined here. *)
Definition own_string (config : JValue) (name : string) : option string :=
  match config with
  | JObject props =>
      match lookup_prop name props with
      | Some (JString s) => Some s
      | _ => None
      end
  | _ => None
  end.

(** Reading a property of [null] throws a TypeError. *)
Definition get_field (config : JValue) (name : string) : M (option string) :=
  match config with
  | JNull => throw (JsError ("Cannot read properties of null (reading '" +:+ name +:+ "')"))
  | _ => ret (own_string config name)
  end.

(** Assigning a property succeeds on objects and arrays and throws a
    TypeError on null and, in strict mode, on primitives.  The parsed config
    it is applied to is a local object that is never saved, so the
    assignment leaves no other trace. *)
Definition set_field (config : JValue) (name : string) : M unit :=
  match config with
  | JObject _ | JArray _ => ret tt
  | _ => throw (JsError ("Cannot set properties (setting '" +:+ name +:+ "')"))
  end.

(** ** [utils/config.ts] (its text follows the API client in the sources) *)

Definition SERVICE_NAME : string := "assay-cli".
Definition KEY_NAME : string := "api-key-secret".

Definition getenv (w : World) (name : string) : option string := env w !! name.

(** [a || b] on strings that may be undefined. *)
Definition js_or (a : option string) (b : string) : string :=
  match a with
  | Some s => if truthy s then s else b
  | None => b
  end.

(** [path.join(a, b)] for the two paths joined here: an empty first segment
    is dropped; the result is not normalised further. *)
Definition path_join (w : World) (a b : string) : string :=
  if truthy a
  then a +:+ (if String.eqb (platform w) "win32" then "\" else "/") +:+ b
  else b.

Definition getConfigDir (w : World) : string :=
  if truthy_opt (getenv w "ASSAY_CONFIG_DIR") then js_or (getenv w "ASSAY_CONFIG_DIR") ""
  else if String.eqb (platform w) "win32" then
    path_join w (js_or (getenv w "APPDATA") (js_or (getenv w "LOCALAPPDATA") "")) "assay"
  else path_join w (homedir w) ".assay".

Definition getConfigPath (w : World) : string :=
  path_join w (getConfigDir w) "config.json".

Definition default_config : JValue :=
  JObject [("baseUrl", JString "https://us-east4-pdfsummaries.cloudfunctions.net/api");
           ("outputFormat", JString "json")].

(** The message of the SyntaxError of [JSON.parse] depends on the engine;
    a fixed text stands for it. *)
Definition loadConfig : M JValue :=
  configPath <- read getConfigPath ;;
  present <- existsSync configPath ;;
  if negb present then ret default_config
  else
    try_catch
      (content <- readFileSync configPath ;;
       match JSON_parse content with
       | Some v => ret v
       | None => throw (JsError "Unexpected token in JSON")
       end)
      (fun error => throw (JsError ("Failed to load config: " +:+ error_message error))).

Definition saveConfig (config : JValue) : M unit :=
  configDir <- read getConfigDir ;;
  configPath <- read getConfigPath ;;
  present <- existsSync configDir ;;
  (if negb present then mkdirSync configDir else ret tt) ;;
  writeFileSync configPath (JSON_stringify config) ;;
  plat <- read platform ;;
  if negb (String.eqb plat "win32")
  then try_catch (chmodSync configPath 384) (fun _ => ret tt)
  else ret tt.

Definition getKeychainServiceName : string := SERVICE_NAME.
Definition getKeychainKeyName : string := KEY_NAME.

(** ** [utils/keychain.ts] *)

(** [keytar.getPassword(service, account)] *)
Definition keytar_getPassword (service account : string) : M (option string) :=
  emit (KeytarGet service account) ;;
  k <- read keytar ;;
  match k with
  | Some vault => ret (vault !! (service, account))
  | None => throw (JsError "keytar is not available")
  end.

(** [keytar.setPassword(service, account, password)]; the JavaScript
    wrapper of keytar ([checkRequired] in its [lib/keytar.js]) refuses an
    empty password before it calls the vault. *)
Definition keytar_setPassword (service account password : string) : M unit :=
  if negb (truthy password) then throw (JsError "Password is required.")
  else
    emit (KeytarSet service account password) ;;
    k <- read keytar ;;
    match k with
    | Some vault =>
        fun w => (Ok tt, set_keytar (Some (<[(service, account) := password]> vault)) w)
    | None => throw (JsError "keytar is not available")
    end.

(** [keytar.deletePassword(service, account)] *)
Definition keytar_deletePassword (service account : string) : M bool :=
  emit (KeytarDelete service account) ;;
  k <- read keytar ;;
  match k with
  | Some vault =>
      fun w => (Ok (bool_decide (is_Some (vault !! (service, account)))),
                set_keytar (Some (delete (service, account) vault)) w)
  | None => throw (JsError "keytar is not available")
  end.

Definition isKeychainAvailable : M bool :=
  cached <- read keytarAvailable ;;
  match cached with
  | Some b => ret b
  | None =>
      try_catch
        (keytar_getPassword getKeychainServiceName "test" ;;
         (fun w => (Ok tt, set_keytarAvailable (Some true) w)) ;;
         ret true)
        (fun _ =>
           (fun w => (Ok tt, set_keytarAvailable (Some false) w)) ;;
           ret false)
  end.

Definition storeApiKeySecret (keySecret : string) : M unit :=
  available <- isKeychainAvailable ;;
  if negb available
  then throw (JsError "Keychain not available. Use environment variable ASSAY_API_KEY instead.")
  else
    try_catch
      (keytar_setPassword getKeychainServiceName getKeychainKeyName keySecret)
      (fun error =>
         throw (JsError ("Failed to store API key in keychain: " +:+ error_message error))).

Definition getApiKeySecret : M (option string) :=
  available <- isKeychainAvailable ;;
  if negb available then ret None
  else
    try_catch
      (keytar_getPassword getKeychainServiceName getKeychainKeyName)
      (fun _ => ret None).

Definition deleteApiKeySecret : M unit :=
  available <- isKeychainAvailable ;;
  if negb available then ret tt
  else
    try_catch
      (keytar_deletePassword getKeychainServiceName getKeychainKeyName ;; ret tt)
      (fun _ => ret tt).

(** ** [utils/apiClient.ts] *)

Definition BASE_URL : string := "https://api.assay.cirrusly-clever.com".

(** [chalk.red] and [chalk.yellow] wrap the text in colour codes when the
    terminal supports them; the text itself is what is modelled. *)
Definition chalk_red (s : string) : string := s.
Definition chalk_yellow (s : string) : string := s.

Definition getApiKey : M (option string) :=
  e <- read env ;;
  if truthy_opt (e !! "ASSAY_API_KEY") then ret (e !! "ASSAY_API_KEY")
  else
    config <- loadConfig ;;
    keyId <- get_field config "keyId" ;;
    if negb (truthy_opt keyId) then ret None
    else
      keySecret <- getApiKeySecret ;;
      if negb (truthy_opt keySecret) then ret None
      else ret (Some ("ask_live_" +:+ js_or keyId "" +:+ "_" +:+ js_or keySecret "")).

Record ExpirationCheck : Type := mkCheck {
  expired : bool;
  expiringSoon : bool;
  message : option string
}.

Definition checkExpiration (expiresAt : option string) : M ExpirationCheck :=
  if negb (truthy_opt expiresAt) then ret (mkCheck false false None)
  else
    parse <- read Date_parse ;;
    let expires := parse (js_or expiresAt "") in
    now <- Date_now ;;
    let diff := js_sub expires (Num now) in
    let thirtyMinutes := 30 * 60 * 1000 in
    if js_le diff (Num 0) then
      ret (mkCheck true false
             (Some (chalk_red "❌ API key expired. Run 'assay auth login' to generate a new key.")))
    else if js_lt diff (Num thirtyMinutes) then
      let minutes := floor_div diff (60 * 1000) in
      ret (mkCheck false true
             (Some (chalk_yellow ("⚠️  Warning: API key expires in " +:+ jsnum_to_string minutes
                                  +:+ " minutes. Run 'assay auth login' to refresh."))))
    else ret (mkCheck false false None).

(** The instance configuration given to [axios.create], completed by the
    arguments of [client.get(url, { params })]. *)
Definition get_request (url : string) (params : list (string * string)) : RequestConfig :=
  {| method := "get";
     url := url;
     params := params;
     baseURL := BASE_URL;
     timeout := 30000;
     headers := {[ "Content-Type" := "application/json" ]};
     retryCount := None |}.

Definition set_header (name value : string) (c : RequestConfig) : RequestConfig :=
  mkRequest (method c) (url c) (params c) (baseURL c) (timeout c)
            (<[name := value]> (headers c)) (retryCount c).

Definition set_retryCount (n : Z) (c : RequestConfig) : RequestConfig :=
  mkRequest (method c) (url c) (params c) (baseURL c) (timeout c) (headers c) (Some n).

(** Request interceptor: add the API key and check expiration. *)
Definition request_interceptor (config : RequestConfig) : M RequestConfig :=
  apiKey <- getApiKey ;;
  if negb (truthy_opt apiKey)
  then throw (JsError "No API key found. Run 'assay auth login' to authenticate.")
  else
    appConfig <- loadConfig ;;
    expiresAt <- get_field appConfig "apiKeyExpiresAt" ;;
    expirationCheck <- checkExpiration expiresAt ;;
    if expired expirationCheck
    then throw (JsError (js_or (message expirationCheck) "API key expired"))
    else
      (if expiringSoon expirationCheck && truthy_opt (message expirationCheck)
       then console_warn (js_or (message expirationCheck) "")
       else ret tt) ;;
      ret (set_header "X-API-Key" (js_or apiKey "") config).

(** The number of requests put on the wire so far. *)
Fixpoint http_count (t : list Event) : nat :=
  match t with
  | HttpSend _ :: r => S (http_count r)
  | _ :: r => http_count r
  | [] => O
  end.

(** The code axios gives the error of a rejected response ([settle]):
    [ERR_BAD_REQUEST] for 4xx, [ERR_BAD_RESPONSE] for 5xx, none otherwise. *)
Definition status_error_code (status : Z) : string :=
  if (400 <=? status) && (status <? 500) then "ERR_BAD_REQUEST"
  else if (500 <=? status) && (status <? 600) then "ERR_BAD_RESPONSE"
  else "".

(** The HTTP adapter of axios: the request goes out, and the promise
    resolves on a status from 200 to 299 and rejects otherwise. *)
Definition dispatchRequest (config : RequestConfig) : M Response :=
  n <- read (fun w => http_count (trace w)) ;;
  emit (HttpSend config) ;;
  reply <- read (fun w => server w n) ;;
  match reply with
  | Responded response =>
      if (200 <=? status response) && (status response <? 300) then ret response
      else throw (AxiosError (status_error_code (status response)) config (Some response))
  | Failed errcode => throw (AxiosError errcode config None)
  end.

(** Response interceptor, on success: the refreshed expiration is read into
    a freshly loaded config, which is not saved. *)
Definition response_fulfilled (response : Response) : M Response :=
  let expiresAt := response_headers response !! "x-api-key-expires-at" in
  (if truthy_opt expiresAt
   then config <- loadConfig ;; set_field config "apiKeyExpiresAt"
   else ret tt) ;;
  ret response.

(** The wait before a retry (lines 127 to 129 of the error interceptor). *)
Definition waitMs (resetHeader : option string) : M jsnum :=
  resetTime <-
    (if truthy_opt resetHeader
     then ret (js_mul (parseInt (js_or resetHeader "")) (Num 1000))
     else now <- Date_now ;; ret (Num (now + 60000))) ;;
  now <- Date_now ;;
  ret (Math_max (Math_min (js_sub resetTime (Num now)) (Num 60000)) (Num 1000)).

(** [(error.config as any)?.['__retryCount'] || 0] *)
Definition retries (config : RequestConfig) : Z :=
  match retryCount config with
  | Some n => n
  | None => 0
  end.

(** Response interceptor, on error, up to its tail call
    [return client.request(error.config)]: [Ok config] is the configuration
    that call is made with, [Throw error] stands for [Promise.reject(error)]. *)
Definition response_rejected (error : Error) : M RequestConfig :=
  match error with
  | AxiosError _ config (Some response) =>
      if status response =? 429 then
        wait <- waitMs (response_headers response !! "x-ratelimit-reset") ;;
        let retryCount := retries config in
        if retryCount <? 3 then
          console_warn (chalk_yellow ("Rate limited. Retrying in "
                                      +:+ jsnum_to_string (ceil_div wait 1000) +:+ "s...")) ;;
          sleep wait ;;
          ret (set_retryCount (retryCount + 1) config)
        else throw error
      else throw error
  | _ => throw error
  end.

(** One pass of [client.request(config)] through the interceptor chain:
    request interceptor, adapter, then the success or the error handler of
    the response interceptor.  An error thrown by the success handler is
    not seen by the error handler of the same interceptor. *)
Definition attempt (config : RequestConfig) : M (Response + RequestConfig) :=
  fun w =>
    match (config' <- request_interceptor config ;; dispatchRequest config') w with
    | (Ok response, w') => (r <- response_fulfilled response ;; ret (inl r)) w'
    | (Throw error, w') => (again <- response_rejected error ;; ret (inr again)) w'
    end.

(** [client.request(config)].  The retry is a tail call, so the recursion
    is a loop over attempts; [None] is returned only when the fuel runs out.
    Every retry increments [__retryCount], which stays below 3 before the
    increment, so 4 units of fuel are enough for a new request. *)
Fixpoint client_request (fuel : nat) (config : RequestConfig) (w : World)
  : option (Result Response * World) :=
  match fuel with
  | O => None
  | S n =>
      match attempt config w with
      | (Ok (inl response), w') => Some (Ok response, w')
      | (Ok (inr config'), w') => client_request n config' w'
      | (Throw error, w') => Some (Throw error, w')
      end
  end.

(** [createApiClient().get(url, { params })]: every command creates its own
    client and issues one request with a fresh configuration. *)
Definition client_get (url : string) (params : list (string * string)) (w : World)
  : option (Result Response * World) :=
  client_request 4 (get_request url params) w.

(** *** Where a request goes (axios, [buildFullPath]) *)










(** ** The requests of [commands/*.ts] *)



(** ** Vocabulary of the statements *)

(** What [isKeychainAvailable] answers in a world: the cached flag, or the
    outcome of the probe when nothing is cached yet. *)
Definition available (w : World) : bool :=
  match keytarAvailable w with
  | Some b => b
  | None => bool_decide (is_Some (keytar w))
  end.

(** The part of the world a request never changes. *)
Definition host (w : World) :=
  (env w, platform w, homedir w, fs w, keytar w, available w,
   clock w, Date_parse w, server w).

Definition is_http (e : Event) : bool :=
  match e with
  | HttpSend _ => true
  | _ => false
  end.

Definition not_http (e : Event) : bool := negb (is_http e).

Definition is_keytar (e : Event) : bool :=
  match e with
  | KeytarGet _ _ | KeytarSet _ _ _ | KeytarDelete _ _ => true
  | _ => false
  end.

Definition is_fs (e : Event) : bool :=
  match e with
  | FsExists _ | FsRead _ | FsMkdir _ | FsWrite _ _ | FsChmod _ _ => true
  | _ => false
  end.

Definition fs_or_keytar (e : Event) : bool := is_fs e || is_keytar e.

(** [m] leaves the host as it is, and its result depends on the host only. *)
Definition stable {A : Type} (m : M A) : Prop :=
  (forall w, host (snd (m w)) = host w) /\
  (forall w w', host w = host w' -> fst (m w) = fst (m w')).

(** [m] changes nothing but the trace, to which it adds events that satisfy
    [P] only; the clock may have been read. *)
Definition emits {A : Type} (P : Event -> bool) (m : M A) : Prop :=
  forall w, exists evs,
    trace (snd (m w)) = evs ++ trace w /\ forallb P evs = true.

Definition is_ascii (s : string) : bool :=
  forallb (fun c => code c <? 128) (list_ascii_of_string s).

Definition ascii_opt (o : option string) : bool :=
  match o with
  | Some s => is_ascii s
  | None => true
  end.

(** A [Config] all of whose string fields are ASCII. *)
Definition ascii_config (c : Config) : bool :=
  ascii_opt (keyId c) && ascii_opt (apiKeyExpiresAt c) && is_ascii (baseUrl c).

Arguments JSON_parse : simpl never.
Arguments JSON_stringify : simpl never.
Arguments getConfigPath : simpl never.
Arguments getConfigDir : simpl never.
Arguments parseInt : simpl never.
Arguments String.append : simpl never.

(** The parsed config agrees with the interface [Config] on the two
    properties the request pipeline reads: each is absent or a string. *)
Definition string_or_absent (name : string) (props : list (string * JValue)) : bool :=
  match lookup_prop name props with
  | None | Some (JString _) => true
  | Some _ => false
  end.

Definition well_typed (config : JValue) : bool :=
  match config with
  | JObject props => string_or_absent "keyId" props && string_or_absent "apiKeyExpiresAt" props
  | _ => true
  end.


(** An object whose properties are all strings, the text of one of its
    members, and the properties a parser has defined after reading them in
    order. *)
Definition string_object (props : list (string * string)) : JValue :=
  JObject (map (fun p => (fst p, JString (snd p))) props).

Definition member_text (p : string * string) : string :=
  quote (fst p) +:+ ": " +:+ quote (snd p).

Definition separator : string := "," +:+ str1 newline +:+ gap.

Definition define_all (props : list (string * string)) (acc : list (string * JValue))
  : list (string * JValue) :=
  fold_left (fun a p => define_prop (fst p) (JString (snd p)) a) props acc.

(** The string properties of the object of a [Config], in order. *)
Definition Config_props (c : Config) : list (string * string) :=
  match keyId c with Some s => [("keyId", s)] | None => [] end
  ++ match apiKeyExpiresAt c with Some s => [("apiKeyExpiresAt", s)] | None => [] end
  ++ [("baseUrl", baseUrl c); ("outputFormat", OutputFormat_string (outputFormat c))].

(** [m] leaves the observation [f] of the world as it is. *)
Definition preserves {X A : Type} (f : World -> X) (m : M A) : Prop :=
  forall w, f (snd (m w)) = f w.

(** The credential checked against the reading [now] of the clock is
    expired. *)
Definition expired_at (w : World) (expiresAt : option string) (now : Z) : bool :=
  truthy_opt expiresAt
  && js_le (js_sub (Date_parse w (js_or expiresAt "")) (Num now)) (Num 0).

(** Requests can be sent from [w] with the credential [key]: the key
    resolves, and the config loads as a well-typed object whose expiration
    timestamp, if any, is not reached at any reading of the clock. *)
Definition usable (key : string) (w : World) : Prop :=
  fst (getApiKey w) = Ok (Some key) /\
  exists props,
    fst (loadConfig w) = Ok (JObject props) /\
    well_typed (JObject props) = true /\
    forall n, expired_at w (own_string (JObject props) "apiKeyExpiresAt") (clock w n) = false.

(** The server answers the [i]-th request with status 429. *)
Definition rate_limited_at (w : World) (i : nat) : Prop :=
  exists r, server w i = Responded r /\ status r = 429.

(** Every request among the events was sent with the given base URL and
    relative URL. *)
Definition sent_as (base relative : string) (e : Event) : bool :=
  match e with
  | HttpSend c => String.eqb (baseURL c) base && String.eqb (url c) relative
  | _ => true
  end.

(** [m] throws JavaScript errors only, no axios error. *)
Definition throws_js {A : Type} (m : M A) : Prop :=
  forall w e, fst (m w) = Throw e -> exists msg, e = JsError msg.

(** ** Example worlds *)

Definition example_path : string := "/home/user/.assay/config.json".

Definition example_config (id expires : option string) : Config :=
  {| keyId := id;
     apiKeyExpiresAt := expires;
     baseUrl := "https://us-east4-pdfsummaries.cloudfunctions.net/api";
     outputFormat := json |}.

Definition config_file (c : Config) : gmap string Node :=
  {[ example_path := File (JSON_stringify (Config_object c)) ]}.

Definition vault_with (secret : string) : gmap (string * string) string :=
  {[ (SERVICE_NAME, KEY_NAME) := secret ]}.

(** 2026-01-01T00:00:00.000Z in milliseconds. *)
Definition example_now : Z := 1767225600000.

Definition example_parse (s : string) : jsnum :=
  if String.eqb s "2025-12-31T23:00:00.000Z" then Num (example_now - 3600000)
  else if String.eqb s "2026-01-01T00:10:00.000Z" then Num (example_now + 600000)
  else if String.eqb s "2026-01-02T00:00:00.000Z" then Num (example_now + 86400000)
  else NaN.

Definition ok_reply : Reply := Responded (mkResponse 200 ∅ "{}").

Definition rate_limited (reset : option string) : Reply :=
  Responded (mkResponse 429
               (match reset with
                | Some r => {[ "x-ratelimit-reset" := r ]}
                | None => ∅
                end) "").

(** A Linux host at [example_now] whose clock advances by one millisecond
    per reading. *)
Definition example_world (e : gmap string string) (files : gmap string Node)
    (vault : option (gmap (string * string) string)) (srv : nat -> Reply) : World :=
  {| env := e;
     platform := "linux";
     homedir := "/home/user";
     fs := files;
     keytar := vault;
     keytarAvailable := None;
     clock := fun n => example_now + Z.of_nat n;
     ticks := 0;
     Date_parse := example_parse;
     server := srv;
     trace := [] |}.

(** Three rate-limit responses, then success. *)
Definition three_then_ok (n : nat) : Reply :=
  if (n <? 3)%nat then rate_limited None else ok_reply.

(** ** [commands/auth.ts]: the helpers *)

Definition DASHBOARD_URL : string := "https://assay.cirrusly-clever.com/dashboard".

(** [s.startsWith(prefix)] *)
Definition startsWith (s prefix : string) : bool :=
  match strip_prefix prefix s with
  | Some _ => true
  | None => false
  end.

(** [s.slice(n)]: the string without its first [n] characters. *)
Fixpoint slice (n : nat) (s : string) : string :=
  match n, s with
  | O, _ => s
  | S k, String _ r => slice k r
  | S _, EmptyString => EmptyString
  end.

(** [s.split(sep)] for a separator of one character; the result has at
    least one part. *)
Fixpoint split (sep : ascii) (s : string) : list string :=
  match s with
  | EmptyString => [EmptyString]
  | String c r =>
      if Ascii.eqb c sep then EmptyString :: split sep r
      else
        match split sep r with
        | part :: parts => String c part :: parts
        | [] => [String c EmptyString]
        end
  end.

Record KeyParts : Type := mkKeyParts {
  parts_keyId : string;
  parts_keySecret : string
}.

(** Parse the API key format [ask_live_<keyId>_<keySecret>]. *)
Definition parseApiKey (apiKey : string) : option KeyParts :=
  if negb (startsWith apiKey "ask_live_") then None
  else
    let parts := split "_" (slice 9 apiKey) in
    if (length parts <? 2)%nat then None
    else Some {| parts_keyId := hd "" parts;
                 parts_keySecret := join "_" (tl parts) |}.

(** [formatTimeRemaining(seconds)], on whole seconds (or NaN). *)
Definition formatTimeRemaining (seconds : jsnum) : string :=
  if js_lt seconds (Num 60) then jsnum_to_string seconds +:+ " seconds"
  else if js_lt seconds (Num 3600) then
    jsnum_to_string (floor_div seconds 60) +:+ " minutes"
  else if js_lt seconds (Num 86400) then
    jsnum_to_string (floor_div seconds 3600) +:+ " hours"
  else jsnum_to_string (floor_div seconds 86400) +:+ " days".

(** The character [c] occurs in [s]. *)
Fixpoint occurs (c : ascii) (s : string) : bool :=
  match s with
  | EmptyString => false
  | String x r => Ascii.eqb x c || occurs c r
  end.

(** ** Vocabulary of the further properties *)


(** ** JavaScript values read from JSON *)

(** The digits of a literal as a number. *)
Fixpoint digits_value (s : string) (acc : Z) : Z :=
  match s with
  | String c r => digits_value r (acc * 10 + (code c - 48))
  | EmptyString => acc
  end.

(** The digits [d] and the decimal exponent [e] of a number literal, whose
    magnitude is [d * 10 ^ e]. *)
Definition number_parts (literal : string) : Z * Z :=
  let unsigned :=
    match literal with
    | String c r => if code c =? 45 then r else literal
    | EmptyString => literal
    end in
  let '(int, s2) := span_digits unsigned in
  let '(frac, s3) :=
    match s2 with
    | String c r => if code c =? 46 then span_digits r else (EmptyString, s2)
    | EmptyString => (EmptyString, s2)
    end in
  let exponent :=
    match s3 with
    | String _ (String c r) =>
        if code c =? 45 then - digits_value r 0
        else if code c =? 43 then digits_value r 0
        else digits_value (String c r) 0
    | _ => 0
    end in
  (digits_value (int +:+ frac) 0, exponent - Z.of_nat (String.length frac)).

(** The Number a literal denotes is 0: its digits are all 0, or its
    magnitude is at most 2^-1075, half the least positive Number, and
    rounds to 0. *)
Definition number_is_zero (literal : string) : bool :=
  let '(d, e) := number_parts literal in
  (d =? 0) || ((e <? 0) && (d * 2 ^ 1075 <=? 10 ^ (- e))).

(** ToBoolean; [None] is [undefined]. *)
Definition js_truthy (v : option JValue) : bool :=
  match v with
  | None => false
  | Some JNull => false
  | Some (JBool b) => b
  | Some (JNumber literal) => negb (number_is_zero literal)
  | Some (JString s) => truthy s
  | Some (JArray _) => true
  | Some (JObject _) => true
  end.

(** [value.name] for a name that no prototype defines: the own property of
    an object, [undefined] on the other values, a TypeError on [null]. *)
Definition get_prop (value : JValue) (name : string) : M (option JValue) :=
  match value with
  | JNull => throw (JsError ("Cannot read properties of null (reading '" +:+ name +:+ "')"))
  | JObject props => ret (lookup_prop name props)
  | _ => ret None
  end.

Fixpoint remove_prop (name : string) (props : list (string * JValue))
  : list (string * JValue) :=
  match props with
  | [] => []
  | (k, v) :: r => if String.eqb name k then r else (k, v) :: remove_prop name r
  end.

(** [object.name = value], as [JSON.stringify] sees the object afterwards:
    an existing property keeps its place, a new one comes last, and a
    property that holds [undefined] ([None]) is left out of the text, so it
    is dropped; a named property of an array is left out as well.  The
    assignment throws a TypeError on [null] and, module code being strict,
    on primitives. *)
Definition assign (object : JValue) (name : string) (value : option JValue) : M JValue :=
  match object with
  | JObject props =>
      ret (JObject (match value with
                    | Some v => define_prop name v props
                    | None => remove_prop name props
                    end))
  | JArray items => ret (JArray items)
  | _ => throw (JsError ("Cannot set properties (setting '" +:+ name +:+ "')"))
  end.

(** [response.data]: axios parses the body as JSON when it is a non-empty
    string that parses, and hands over the text otherwise. *)
Definition response_data (response : Response) : JValue :=
  if truthy (data response) then
    match JSON_parse (data response) with
    | Some v => v
    | None => JString (data response)
    end
  else JString (data response).

(** ** [commands/auth.ts]: verification of a key *)

Definition ME_URL : string :=
  "https://us-east4-pdfsummaries.cloudfunctions.net/api/api/v1/me".

(** The configuration of [axios.get(url, { headers, timeout })] on the
    default instance of axios, which has no base URL and no interceptors. *)
Definition axios_get_request (url : string) (hdrs : gmap string string) (ms : Z)
  : RequestConfig :=
  {| method := "get";
     url := url;
     params := [];
     baseURL := "";
     timeout := ms;
     headers := hdrs;
     retryCount := None |}.

Record TestResult : Type := mkTestResult {
  valid : bool;
  expiresAt : option JValue
}.

(** Test an API key by calling [/api/v1/me]. *)
Definition testApiKey (apiKey : string) : M TestResult :=
  try_catch
    (response <- dispatchRequest
                   (axios_get_request ME_URL {[ "X-API-Key" := apiKey ]} 10000) ;;
     success <- get_prop (response_data response) "success" ;;
     if js_truthy success then
       payload <- get_prop (response_data response) "data" ;;
       if js_truthy payload then
         expires <- match payload with
                    | Some d => get_prop d "expiresAt"
                    | None => ret None
                    end ;;
         ret (mkTestResult true expires)
       else ret (mkTestResult false None)
     else ret (mkTestResult false None))
    (fun _ => ret (mkTestResult false None)).

(** ** The terminal and the process of a command *)

(** What a command writes and asks besides the events of the world
    ([console.warn] is one of those), most recent first. *)
Inductive Output : Type :=
| ConsoleLog (text : string)
| ConsoleError (text : string)
| Open (target : string)
| Prompt (message : string).

Record Process : Type := mkProcess {
  world : World;
  terminal : list Output;
  typed : list string;             (* what the user submits to prompts, in order *)
  open_fails : option string;      (* the message [open] rejects with, if it does *)
  toLocaleString : JValue -> string (* [new Date(value).toLocaleString()] *)
}.

Definition set_world (w : World) (p : Process) : Process :=
  mkProcess w (terminal p) (typed p) (open_fails p) (toLocaleString p).

Definition set_terminal (t : list Output) (p : Process) : Process :=
  mkProcess (world p) t (typed p) (open_fails p) (toLocaleString p).

Definition set_typed (l : list string) (p : Process) : Process :=
  mkProcess (world p) (terminal p) l (open_fails p) (toLocaleString p).

(** How an action ends: it returns, throws, ends the process with
    [process.exit(code)], or awaits an answer that never comes. *)
Inductive Outcome (A : Type) : Type :=
| Returned (a : A)
| Threw (e : Error)
| Exited (exitCode : Z)
| Pending.

Arguments Returned {A} a.
Arguments Threw {A} e.
Arguments Exited {A} exitCode.
Arguments Pending {A}.

Definition Cmd (A : Type) : Type := Process -> Outcome A * Process.

Definition cmd_ret {A : Type} (a : A) : Cmd A := fun p => (Returned a, p).

Definition cmd_bind {A B : Type} (m : Cmd A) (k : A -> Cmd B) : Cmd B :=
  fun p =>
    match m p with
    | (Returned a, p') => k a p'
    | (Threw e, p') => (Threw e, p')
    | (Exited c, p') => (Exited c, p')
    | (Pending, p') => (Pending, p')
    end.

(** [try { m } catch (error) { h error }]: an exit is not an exception. *)
Definition cmd_try_catch {A : Type} (m : Cmd A) (h : Error -> Cmd A) : Cmd A :=
  fun p =>
    match m p with
    | (Threw e, p') => h e p'
    | other => other
    end.

(** A computation on the world, run by the process. *)
Definition lift {A : Type} (m : M A) : Cmd A :=
  fun p =>
    match m (world p) with
    | (Ok a, w') => (Returned a, set_world w' p)
    | (Throw e, w') => (Threw e, set_world w' p)
    end.

Definition show (o : Output) : Cmd unit :=
  fun p => (Returned tt, set_terminal (o :: terminal p) p).

(** [new Date(value).toLocaleString()], which depends on the locale and
    the time zone of the host. *)
Definition Date_toLocaleString (value : JValue) : Cmd string :=
  fun p => (Returned (toLocaleString p value), p).

(** [process.exit(code)] does not return. *)
Definition process_exit {A : Type} (exitCode : Z) : Cmd A :=
  fun p => (Exited exitCode, p).

(** [await open(target)] *)
Definition open (target : string) : Cmd unit :=
  fun p =>
    match open_fails p with
    | None => (Returned tt, set_terminal (Open target :: terminal p) p)
    | Some msg => (Threw (JsError msg), set_terminal (Open target :: terminal p) p)
    end.

Fixpoint first_valid (validate : string -> bool) (inputs : list string)
  : option (string * list string) :=
  match inputs with
  | [] => None
  | input :: rest => if validate input then Some (input, rest) else first_valid validate rest
  end.

(** [inquirer.prompt] with one question of type [input]: the question is
    asked again until an answer passes [validate]. *)
Definition prompt_input (message : string) (validate : string -> bool) : Cmd string :=
  fun p =>
    match first_valid validate (typed p) with
    | Some (answer, rest) =>
        (Returned answer, set_typed rest (set_terminal (Prompt message :: terminal p) p))
    | None => (Pending, set_typed [] (set_terminal (Prompt message :: terminal p) p))
    end.

Declare Scope cmd_scope.
Delimit Scope cmd_scope with cmd.
Notation "x <- m ;; k" := (cmd_bind m (fun x => k))
  (at level 100, m at next level, right associativity) : cmd_scope.
Notation "m ;; k" := (cmd_bind m (fun _ => k))
  (at level 100, right associativity) : cmd_scope.

(** ** [utils/output.ts]: messages *)

Definition chalk_green (s : string) : string := s.
Definition chalk_blue (s : string) : string := s.

Definition printSuccess (message : string) : Cmd unit :=
  show (ConsoleLog (chalk_green ("✅ " +:+ message))).

Definition printError (message : string) : Cmd unit :=
  show (ConsoleError (chalk_red ("❌ " +:+ message))).

Definition printWarning (message : string) : Cmd unit :=
  lift (console_warn (chalk_yellow ("⚠️  " +:+ message))).

Definition printInfo (message : string) : Cmd unit :=
  show (ConsoleLog (chalk_blue ("ℹ️  " +:+ message))).

(** ** [commands/auth.ts]: the login command *)

Definition LOGIN_BASE_URL : string := "https://us-east4-pdfsummaries.cloudfunctions.net/api".

(** The [validate] function of the question of [login]; [false] stands for
    the message it returns instead of [true]. *)
Definition validate_key (input : string) : bool := startsWith input "ask_live_".

(** The action of [createLoginCommand].  Whatever is thrown is an [Error],
    so the handler prints its message. *)
Definition login_action : Cmd unit :=
  cmd_try_catch
    (printInfo "Opening Dashboard to generate API key..." ;;
     open DASHBOARD_URL ;;
     apiKey <- prompt_input "Paste your API key (ask_live_...):" validate_key ;;
     parsed <- match parseApiKey apiKey with
               | Some parsed => cmd_ret parsed
               | None => printError "Invalid API key format" ;; process_exit 1
               end ;;
     printInfo "Testing API key..." ;;
     testResult <- lift (testApiKey apiKey) ;;
     (if negb (valid testResult)
      then printError "API key validation failed. Please check your key and try again." ;;
           process_exit 1
      else cmd_ret tt) ;;
     keychainAvailable <- lift isKeychainAvailable ;;
     (if keychainAvailable
      then lift (storeApiKeySecret (parts_keySecret parsed)) ;;
           printInfo "API key stored securely in OS keychain"
      else printWarning "Keychain not available. Storing key in config file (chmod 600)." ;;
           printWarning
             "For better security, set ASSAY_API_KEY environment variable instead.") ;;
     config <- lift loadConfig ;;
     config <- lift (assign config "keyId" (Some (JString (parts_keyId parsed)))) ;;
     config <- lift (assign config "apiKeyExpiresAt" (expiresAt testResult)) ;;
     config <- lift (assign config "baseUrl" (Some (JString LOGIN_BASE_URL))) ;;
     lift (saveConfig config) ;;
     (if negb keychainAvailable
      then printWarning (str1 newline +:+ "Alternatively, set environment variable:"
                         +:+ str1 newline +:+ "  export ASSAY_API_KEY=" +:+ str1 dquote
                         +:+ apiKey +:+ str1 dquote)
      else cmd_ret tt) ;;
     until <- match expiresAt testResult with
              | Some v => if js_truthy (Some v) then Date_toLocaleString v
                          else cmd_ret "unknown"
              | None => cmd_ret "unknown"
              end ;;
     printSuccess ("API key valid until " +:+ until))%cmd
    (fun error => (printError (error_message error) ;; process_exit 1)%cmd).

(** ** Vocabulary of the statements about commands *)

(** [m] returns or throws: it neither ends the process nor waits. *)
Definition settles {A : Type} (m : Cmd A) : Prop :=
  forall p, match fst (m p) with
            | Returned _ | Threw _ => True
            | Exited _ | Pending => False
            end.

(** [m] returns or throws, and when it returns the last thing on the
    terminal is the success message of [login]. *)
Definition announces {A : Type} (m : Cmd A) : Prop :=
  forall p, match fst (m p) with
            | Returned _ =>
                exists text rest,
                  terminal (snd (m p))
                  = ConsoleLog ("✅ API key valid until " +:+ text) :: rest
            | Threw _ => True
            | Exited _ | Pending => False
            end.


(** The string properties of an object, for objects that hold strings
    only. *)
Definition strings_of (props : list (string * JValue)) : list (string * string) :=
  map (fun p => (fst p, match snd p with
                        | JString s => s
                        | _ => ""
                        end)) props.

(** ** Example processes *)

(** The reply of [/api/v1/me] to a valid key. *)
Definition key_accepted : Reply :=
  Responded (mkResponse 200 ∅
               ("{" +:+ quote "success" +:+ ":true," +:+ quote "data" +:+ ":{"
                +:+ quote "expiresAt" +:+ ":" +:+ quote "2026-01-02T00:00:00.000Z" +:+ "}}")).

(** A process in which the browser opens, the user submits [inputs] and
    dates are shown in ISO format. *)
Definition example_process (w : World) (inputs : list string) : Process :=
  {| world := w;
     terminal := [];
     typed := inputs;
     open_fails := None;
     toLocaleString := fun v => match v with
                                | JString s => s
                                | _ => "Invalid Date"
                                end |}.

(** * Properties *)

(** ** The primitives on examples *)

Example parseInt_examples :
  parseInt "1767225600" = Num 1767225600 /\
  parseInt "  -12px" = Num (-12) /\
  parseInt "0x1F" = Num 31 /\
  parseInt "2026-01-01T00:00:00Z" = Num 2026 /\
  parseInt "soon" = NaN /\
  parseInt "" = NaN.
Proof. repeat split. Qed.

Example Math_examples :
  Math_max (Math_min (Num 600000) (Num 60000)) (Num 1000) = Num 60000 /\
  Math_max (Math_min (Num (-5)) (Num 60000)) (Num 1000) = Num 1000 /\
  Math_max (Math_min NaN (Num 60000)) (Num 1000) = NaN /\
  ceil_div (Num 59999) 1000 = Num 60 /\
  floor_div (Num 599999) 60000 = Num 9.
Proof. repeat split. Qed.

Example JSON_examples :
  JSON_parse " [1 , [2] ,{}] " = Some (JArray [JNumber "1"; JArray [JNumber "2"]; JObject []]) /\
  JSON_parse "[1, 2" = None /\
  JSON_parse "{" = None /\
  JSON_parse "01" = None /\
  JSON_parse "nul" = None /\
  JSON_parse "" = None /\
  JSON_parse "1 2" = None /\
  JSON_parse "null" = Some JNull.
Proof. vm_compute. repeat split. Qed.

Example JSON_stringify_example :
  JSON_stringify (JObject [("baseUrl", JString "u"); ("outputFormat", JString "json")])
  = "{" +:+ str1 newline
    +:+ "  " +:+ quote "baseUrl" +:+ ": " +:+ quote "u" +:+ "," +:+ str1 newline
    +:+ "  " +:+ quote "outputFormat" +:+ ": " +:+ quote "json" +:+ str1 newline
    +:+ "}".
Proof. vm_compute. reflexivity. Qed.

Example JSON_escapes_example :
  let s := "a" +:+ str1 dquote +:+ str1 (chr 1) +:+ "\b" +:+ str1 newline in
  JSON_stringify (JString s)
  = str1 dquote +:+ "a\" +:+ str1 dquote +:+ "\u0001\\b\n" +:+ str1 dquote /\
  JSON_parse (JSON_stringify (JString s)) = Some (JString s).
Proof. vm_compute. split; reflexivity. Qed.

(** ** Reasoning about computations *)

Ltac run :=
  unfold bind, read, ret, throw, emit, try_catch, console_warn, sleep in *; simpl in *.

Lemma host_set_trace t w : host (set_trace t w) = host w.
Proof. reflexivity. Qed.

Lemma host_set_ticks n w : host (set_ticks n w) = host w.
Proof. reflexivity. Qed.

Lemma host_fields w w' :
  host w = host w' ->
  env w = env w' /\ platform w = platform w' /\ homedir w = homedir w' /\
  fs w = fs w' /\ keytar w = keytar w' /\ available w = available w' /\
  clock w = clock w' /\ Date_parse w = Date_parse w' /\ server w = server w'.
Proof. unfold host. intros H. injection H as -> -> -> -> -> -> -> -> ->. repeat split. Qed.

Lemma stable_ret {A} (a : A) : stable (ret a).
Proof. split; reflexivity. Qed.

Lemma stable_throw {A} e : stable (@throw A e).
Proof. split; reflexivity. Qed.

Lemma stable_emit e : stable (emit e).
Proof. split; reflexivity. Qed.

Lemma stable_read {A} (f : World -> A) :
  (forall w w', host w = host w' -> f w = f w') -> stable (read f).
Proof. intros Hf. split; [reflexivity|]. intros w w' H. run. f_equal. auto. Qed.

Lemma stable_bind {A B} (m : M A) (k : A -> M B) :
  stable m -> (forall a, stable (k a)) -> stable (bind m k).
Proof.
  intros [Hm1 Hm2] Hk. split.
  - intros w. unfold bind. specialize (Hm1 w).
    destruct (m w) as [[a|e] w1]; simpl in *; [|assumption].
    destruct (Hk a) as [Hk1 _]. rewrite Hk1. assumption.
  - intros w w' H. unfold bind.
    pose proof (Hm2 w w' H) as Hr. pose proof (Hm1 w) as H1. pose proof (Hm1 w') as H1'.
    destruct (m w) as [r w1], (m w') as [r' w1']; simpl in *. subst r'.
    destruct r as [a|e]; [|reflexivity].
    destruct (Hk a) as [_ Hk2]. apply Hk2. congruence.
Qed.

Lemma stable_try_catch {A} (m : M A) (h : Error -> M A) :
  stable m -> (forall e, stable (h e)) -> stable (try_catch m h).
Proof.
  intros [Hm1 Hm2] Hh. split.
  - intros w. unfold try_catch. specialize (Hm1 w).
    destruct (m w) as [[a|e] w1]; simpl in *; [assumption|].
    destruct (Hh e) as [Hh1 _]. rewrite Hh1. assumption.
  - intros w w' H. unfold try_catch.
    pose proof (Hm2 w w' H) as Hr. pose proof (Hm1 w) as H1. pose proof (Hm1 w') as H1'.
    destruct (m w) as [r w1], (m w') as [r' w1']; simpl in *. subst r'.
    destruct r as [a|e]; [reflexivity|].
    destruct (Hh e) as [_ Hh2]. apply Hh2. congruence.
Qed.

Lemma stable_if {A} (b : bool) (m1 m2 : M A) :
  stable m1 -> stable m2 -> stable (if b then m1 else m2).
Proof. destruct b; auto. Qed.

Lemma emits_ret {A} P (a : A) : emits P (ret a).
Proof. intros w. exists []. split; reflexivity. Qed.

Lemma emits_throw {A} P e : emits P (@throw A e).
Proof. intros w. exists []. split; reflexivity. Qed.

Lemma emits_read {A} P (f : World -> A) : emits P (read f).
Proof. intros w. exists []. split; reflexivity. Qed.

Lemma emits_emit (P : Event -> bool) e : P e = true -> emits P (emit e).
Proof. intros H w. exists [e]. split; [reflexivity|]. simpl. rewrite H. reflexivity. Qed.

Lemma emits_bind {A B} P (m : M A) (k : A -> M B) :
  emits P m -> (forall a, emits P (k a)) -> emits P (bind m k).
Proof.
  intros Hm Hk w. unfold bind. destruct (Hm w) as (evs & Ht & Hp).
  destruct (m w) as [[a|e] w1]; simpl in *.
  - destruct (Hk a w1) as (evs' & Ht' & Hp'). exists (evs' ++ evs).
    rewrite Ht', Ht, app_assoc. split; [reflexivity|].
    rewrite forallb_app, Hp, Hp'. reflexivity.
  - exists evs. auto.
Qed.

Lemma emits_try_catch {A} P (m : M A) (h : Error -> M A) :
  emits P m -> (forall e, emits P (h e)) -> emits P (try_catch m h).
Proof.
  intros Hm Hh w. unfold try_catch. destruct (Hm w) as (evs & Ht & Hp).
  destruct (m w) as [[a|e] w1]; simpl in *.
  - exists evs. auto.
  - destruct (Hh e w1) as (evs' & Ht' & Hp'). exists (evs' ++ evs).
    rewrite Ht', Ht, app_assoc. split; [reflexivity|].
    rewrite forallb_app, Hp, Hp'. reflexivity.
Qed.

Lemma emits_if {A} P (b : bool) (m1 m2 : M A) :
  emits P m1 -> emits P m2 -> emits P (if b then m1 else m2).
Proof. destruct b; auto. Qed.

Lemma emits_weaken {A} (P Q : Event -> bool) (m : M A) :
  (forall e, P e = true -> Q e = true) -> emits P m -> emits Q m.
Proof.
  intros HPQ Hm w. destruct (Hm w) as (evs & Ht & Hp). exists evs. split; [assumption|].
  rewrite forallb_forall in *. auto.
Qed.

Ltac host_eqs H :=
  apply host_fields in H;
  destruct H as (?He & ?Hp & ?Hh & ?Hf & ?Hk & ?Ha & ?Hc & ?Hd & ?Hs).

Ltac stable_step :=
  first
    [ apply stable_ret
    | apply stable_throw
    | apply stable_emit
    | apply stable_bind; [|intros ?]
    | apply stable_try_catch; [|intros ?]
    | match goal with
      | |- stable (if ?b then _ else _) => destruct b
      | |- stable (match ?x with _ => _ end) => destruct x
      end ].

Ltac emits_step :=
  first
    [ apply emits_ret
    | apply emits_throw
    | apply emits_read
    | apply emits_emit; reflexivity
    | apply emits_bind; [|intros ?]
    | apply emits_try_catch; [|intros ?]
    | match goal with
      | |- emits _ (if ?b then _ else _) => destruct b
      | |- emits _ (match ?x with _ => _ end) => destruct x
      end ].

(** ** The config store *)

Lemma getConfigDir_host w w' : host w = host w' -> getConfigDir w = getConfigDir w'.
Proof.
  intros H. host_eqs H. unfold getConfigDir, path_join, getenv.
  rewrite He, Hp, Hh. reflexivity.
Qed.

Lemma getConfigPath_host w w' : host w = host w' -> getConfigPath w = getConfigPath w'.
Proof.
  intros H. unfold getConfigPath, path_join. rewrite (getConfigDir_host _ _ H).
  host_eqs H. rewrite Hp. reflexivity.
Qed.

Lemma fs_host w w' : host w = host w' -> fs w = fs w'.
Proof. intros H. host_eqs H. assumption. Qed.

Lemma stable_existsSync p : stable (existsSync p).
Proof. unfold existsSync. repeat stable_step. apply stable_read, fs_host. Qed.

Lemma stable_readFileSync p : stable (readFileSync p).
Proof.
  unfold readFileSync. apply stable_bind; [apply stable_emit|intros _].
  apply stable_bind; [apply stable_read, fs_host|intros f].
  repeat stable_step.
Qed.

Lemma stable_loadConfig : stable loadConfig.
Proof.
  unfold loadConfig.
  apply stable_bind; [apply stable_read, getConfigPath_host|intros p].
  apply stable_bind; [apply stable_existsSync|intros b].
  destruct b; simpl; [|apply stable_ret].
  apply stable_try_catch; [|intros e; apply stable_throw].
  apply stable_bind; [apply stable_readFileSync|intros c].
  destruct (JSON_parse c); repeat stable_step.
Qed.

Lemma emits_loadConfig : emits is_fs loadConfig.
Proof.
  unfold loadConfig, existsSync, readFileSync. repeat emits_step.
Qed.

(** [loadConfig] changes nothing but the trace. *)
Lemma loadConfig_world w : exists t, snd (loadConfig w) = set_trace t w.
Proof.
  unfold loadConfig, existsSync, readFileSync. run.
  destruct (bool_decide _); simpl; [|eauto].
  destruct (fs w !! getConfigPath w) as [[c|]|]; simpl; eauto.
  destruct (JSON_parse c); simpl; eauto.
Qed.

(** What [loadConfig] returns is decided by the node at the config path. *)
Lemma loadConfig_absent w :
  fs w !! getConfigPath w = None ->
  loadConfig w = (Ok default_config, set_trace (FsExists (getConfigPath w) :: trace w) w).
Proof.
  intros H. unfold loadConfig, existsSync. run. rewrite H. reflexivity.
Qed.

Lemma loadConfig_file w content v :
  fs w !! getConfigPath w = Some (File content) ->
  JSON_parse content = Some v ->
  fst (loadConfig w) = Ok v.
Proof.
  intros H Hv. unfold loadConfig, existsSync, readFileSync. run. rewrite H. simpl.
  rewrite H. simpl. rewrite Hv. reflexivity.
Qed.

(** ** The secret store adapter *)

Lemma keytar_host w w' : host w = host w' -> keytar w = keytar w'.
Proof. intros H. host_eqs H. assumption. Qed.

Lemma stable_keytar_getPassword s a : stable (keytar_getPassword s a).
Proof.
  unfold keytar_getPassword. apply stable_bind; [apply stable_emit|intros _].
  apply stable_bind; [apply stable_read, keytar_host|intros k].
  repeat stable_step.
Qed.

Lemma isKeychainAvailable_result w : fst (isKeychainAvailable w) = Ok (available w).
Proof.
  unfold isKeychainAvailable, available, keytar_getPassword. run.
  destruct (keytarAvailable w); [reflexivity|].
  destruct (keytar w); reflexivity.
Qed.

Lemma isKeychainAvailable_host w : host (snd (isKeychainAvailable w)) = host w.
Proof.
  unfold isKeychainAvailable, available, keytar_getPassword, host, available. run.
  destruct (keytarAvailable w) eqn:E; simpl; [rewrite E; reflexivity|].
  destruct (keytar w) eqn:K; simpl; rewrite ?K; simpl; repeat f_equal.
Qed.

Lemma stable_isKeychainAvailable : stable isKeychainAvailable.
Proof.
  split; [apply isKeychainAvailable_host|].
  intros w w' H. rewrite !isKeychainAvailable_result. host_eqs H. congruence.
Qed.

Lemma stable_getApiKeySecret : stable getApiKeySecret.
Proof.
  unfold getApiKeySecret.
  apply stable_bind; [apply stable_isKeychainAvailable|intros b].
  destruct b; simpl; [|apply stable_ret].
  apply stable_try_catch; [apply stable_keytar_getPassword|intros e; apply stable_ret].
Qed.

Lemma emits_isKeychainAvailable : emits is_keytar isKeychainAvailable.
Proof.
  intros w. unfold isKeychainAvailable, keytar_getPassword. run.
  destruct (keytarAvailable w); simpl; [exists []; split; reflexivity|].
  destruct (keytar w); simpl; eexists [_]; split; reflexivity.
Qed.

Lemma emits_getApiKeySecret : emits is_keytar getApiKeySecret.
Proof.
  unfold getApiKeySecret.
  apply emits_bind; [apply emits_isKeychainAvailable|intros b].
  unfold keytar_getPassword. repeat emits_step.
Qed.

(** ** The credential resolver *)

Lemma truthy_nonempty s : s <> "" -> truthy s = true.
Proof. destruct s; [congruence|reflexivity]. Qed.

Lemma truthy_true s : truthy s = true -> js_or (Some s) "" = s.
Proof. unfold js_or. intros ->. reflexivity. Qed.

Lemma env_host w w' : host w = host w' -> env w = env w'.
Proof. intros H. host_eqs H. assumption. Qed.

Lemma stable_get_field config name : stable (get_field config name).
Proof. unfold get_field. destruct config; repeat stable_step. Qed.

Lemma stable_getApiKey : stable getApiKey.
Proof.
  unfold getApiKey.
  apply stable_bind; [apply stable_read, env_host|intros e].
  apply stable_if; [apply stable_ret|].
  apply stable_bind; [apply stable_loadConfig|intros config].
  apply stable_bind; [apply stable_get_field|intros keyId].
  apply stable_if; [apply stable_ret|].
  apply stable_bind; [apply stable_getApiKeySecret|intros keySecret].
  apply stable_if; apply stable_ret.
Qed.

Lemma emits_getApiKey : emits fs_or_keytar getApiKey.
Proof.
  unfold getApiKey.
  apply emits_bind; [apply emits_read|intros e].
  apply emits_if; [apply emits_ret|].
  apply emits_bind.
  { eapply emits_weaken; [|apply emits_loadConfig].
    intros ev H. unfold fs_or_keytar. rewrite H. reflexivity. }
  intros config. apply emits_bind; [unfold get_field; destruct config; repeat emits_step|].
  intros keyId. apply emits_if; [apply emits_ret|].
  apply emits_bind.
  { eapply emits_weaken; [|apply emits_getApiKeySecret].
    intros ev H. unfold fs_or_keytar. rewrite H. apply orb_true_r. }
  intros s. apply emits_if; apply emits_ret.
Qed.

(** A resolved key is never the empty string. *)
Lemma getApiKey_truthy w key : fst (getApiKey w) = Ok (Some key) -> truthy key = true.
Proof.
  unfold getApiKey, bind, read, ret. simpl.
  destruct (truthy_opt (env w !! "ASSAY_API_KEY")) eqn:E; simpl.
  - intros [= H]. rewrite H in E. assumption.
  - destruct (loadConfig w) as [[c|e] w1]; simpl; [|discriminate].
    destruct (get_field c "keyId" w1) as [[k|e] w2]; simpl; [|discriminate].
    destruct (negb (truthy_opt k)); simpl; [discriminate|].
    destruct (getApiKeySecret w2) as [[s|e] w3]; simpl; [|discriminate].
    destruct (negb (truthy_opt s)); simpl; [discriminate|].
    intros [= <-]. reflexivity.
Qed.

(** When the environment variable is unset (or empty), resolution starts
    by loading the config. *)
Lemma getApiKey_from_config w :
  truthy_opt (env w !! "ASSAY_API_KEY") = false ->
  getApiKey w =
  (config <- loadConfig ;;
   keyId <- get_field config "keyId" ;;
   if negb (truthy_opt keyId) then ret None
   else
     keySecret <- getApiKeySecret ;;
     if negb (truthy_opt keySecret) then ret None
     else ret (Some ("ask_live_" +:+ js_or keyId "" +:+ "_" +:+ js_or keySecret ""))) w.
Proof. intros H. unfold getApiKey at 1, bind at 1, read. rewrite H. reflexivity. Qed.

Lemma getApiKeySecret_found w vault secret :
  available w = true ->
  keytar w = Some vault ->
  vault !! (SERVICE_NAME, KEY_NAME) = Some secret ->
  fst (getApiKeySecret w) = Ok (Some secret).
Proof.
  intros Ha Hk Hv. unfold getApiKeySecret, bind.
  pose proof (isKeychainAvailable_result w) as Hr.
  pose proof (isKeychainAvailable_host w) as Hh.
  destruct (isKeychainAvailable w) as [r w1]. simpl in *. subst r. rewrite Ha. simpl.
  host_eqs Hh. unfold keytar_getPassword. run. rewrite Hk0, Hk. simpl.
  unfold getKeychainServiceName, getKeychainKeyName. rewrite Hv. reflexivity.
Qed.

(** C5 (as amended): when [ASSAY_API_KEY] is set to a non-empty value,
    credential resolution returns that value verbatim and leaves the world
    untouched: no event is recorded, so neither the config file nor the
    secret store is read. *)
Theorem getApiKey_env_wins (w : World) (v : string) :
  env w !! "ASSAY_API_KEY" = Some v ->
  v <> "" ->
  getApiKey w = (Ok (Some v), w).
Proof.
  intros Henv Hv. unfold getApiKey, bind, read, ret.
  rewrite Henv. simpl. rewrite (truthy_nonempty v Hv). reflexivity.
Qed.

Lemma getApiKey_env_wins_witness :
  let w := example_world {[ "ASSAY_API_KEY" := "ask_live_k1_zzz" ]}
             (config_file (example_config (Some "abc123") None)) (Some (vault_with "s3cret"))
             (fun _ => ok_reply) in
  getApiKey w = (Ok (Some "ask_live_k1_zzz"), w).
Proof.
  intros w. apply (getApiKey_env_wins w "ask_live_k1_zzz"); [reflexivity|discriminate].
Defined.

(** C5 as stated fails when the variable is set to the empty string: the
    resolver then falls through to the config file and the secret store. *)
Lemma getApiKey_env_empty_counterexample :
  let w := example_world {[ "ASSAY_API_KEY" := "" ]}
             (config_file (example_config (Some "abc123") None)) (Some (vault_with "s3cret"))
             (fun _ => ok_reply) in
  env w !! "ASSAY_API_KEY" = Some "" /\
  fst (getApiKey w) = Ok (Some "ask_live_abc123_s3cret") /\
  fst (getApiKey w) <> Ok (Some "") /\
  trace (snd (getApiKey w)) =
    [KeytarGet "assay-cli" "api-key-secret"; KeytarGet "assay-cli" "test";
     FsRead example_path; FsExists example_path].
Proof.
  intros w. assert (H : fst (getApiKey w) = Ok (Some "ask_live_abc123_s3cret")).
  { vm_compute. reflexivity. }
  split; [reflexivity|]. split; [exact H|]. split.
  - rewrite H. discriminate.
  - vm_compute. reflexivity.
Qed.

(** C6: when [ASSAY_API_KEY] is unset and the loaded config has no key
    identifier, resolution returns null; it records file-system events only
    and leaves the vault and the cached availability flag as they were, so
    the secret store is never queried. *)
Theorem getApiKey_without_keyId (w : World) (props : list (string * JValue)) :
  env w !! "ASSAY_API_KEY" = None ->
  fst (loadConfig w) = Ok (JObject props) ->
  lookup_prop "keyId" props = None ->
  fst (getApiKey w) = Ok None /\
  keytar (snd (getApiKey w)) = keytar w /\
  keytarAvailable (snd (getApiKey w)) = keytarAvailable w /\
  exists evs, trace (snd (getApiKey w)) = evs ++ trace w /\ forallb is_fs evs = true.
Proof.
  intros Henv Hload Hid.
  rewrite getApiKey_from_config by (rewrite Henv; reflexivity).
  unfold bind. destruct (emits_loadConfig w) as (evs & Ht & Hfs).
  destruct (loadConfig_world w) as (t & Hw).
  destruct (loadConfig w) as [r w1]. simpl in *. subst r w1.
  unfold get_field, own_string, ret. simpl. rewrite Hid. simpl.
  repeat split. exists evs. auto.
Qed.

Lemma getApiKey_without_keyId_witness :
  let w := example_world ∅ (config_file (example_config None None))
             (Some (vault_with "s3cret")) (fun _ => ok_reply) in
  fst (getApiKey w) = Ok None /\
  keytar (snd (getApiKey w)) = keytar w /\
  keytarAvailable (snd (getApiKey w)) = keytarAvailable w /\
  exists evs, trace (snd (getApiKey w)) = evs ++ trace w /\ forallb is_fs evs = true.
Proof.
  intros w.
  apply (getApiKey_without_keyId w
           [("baseUrl", JString "https://us-east4-pdfsummaries.cloudfunctions.net/api");
            ("outputFormat", JString "json")]).
  - reflexivity.
  - vm_compute. reflexivity.
  - reflexivity.
Defined.




(** C9: when the config file is absent, [loadConfig] returns exactly the
    hardcoded default, the object of a [Config] with the default endpoint as
    base URL, the json output format, no key identifier and no expiration
    timestamp. *)
Theorem loadConfig_default (w : World) :
  fs w !! getConfigPath w = None ->
  fst (loadConfig w) = Ok default_config /\
  default_config =
    Config_object {| keyId := None;
                     apiKeyExpiresAt := None;
                     baseUrl := "https://us-east4-pdfsummaries.cloudfunctions.net/api";
                     outputFormat := json |} /\
  own_string default_config "keyId" = None /\
  own_string default_config "apiKeyExpiresAt" = None /\
  own_string default_config "baseUrl"
    = Some "https://us-east4-pdfsummaries.cloudfunctions.net/api" /\
  own_string default_config "outputFormat" = Some "json".
Proof.
  intros H. rewrite (loadConfig_absent w H). repeat split.
Qed.

Lemma loadConfig_default_witness :
  fst (loadConfig (example_world ∅ ∅ None (fun _ => ok_reply))) = Ok default_config.
Proof.
  apply (loadConfig_default (example_world ∅ ∅ None (fun _ => ok_reply))). reflexivity.
Defined.

(** ** Expiration check *)

(** C3: [checkExpiration] answers false/false without a timestamp;
    expired for a timestamp at or before the current time; expiring soon
    (and not expired) for a timestamp less than 30 minutes ahead, which
    covers 1 to 29 minutes; and false/false for a timestamp 30 minutes or
    more ahead.  A timestamp is a non-empty string that denotes the time
    [t]; the current time is the next reading of the clock. *)
Theorem checkExpiration_cases (w : World) :
  fst (checkExpiration None w) = Ok (mkCheck false false None) /\
  forall (s : string) (t : Z),
    s <> "" ->
    Date_parse w s = Num t ->
    let now := clock w (ticks w) in
    (t <= now ->
     exists msg, fst (checkExpiration (Some s) w) = Ok (mkCheck true false (Some msg))) /\
    (now < t < now + 30 * 60 * 1000 ->
     exists msg, fst (checkExpiration (Some s) w) = Ok (mkCheck false true (Some msg))) /\
    (now + 30 * 60 * 1000 <= t ->
     fst (checkExpiration (Some s) w) = Ok (mkCheck false false None)).
Proof.
  split; [reflexivity|]. intros s t Hs Ht now.
  unfold checkExpiration, bind, read, ret, Date_now. simpl.
  rewrite (truthy_nonempty s Hs). simpl. rewrite Ht. simpl. fold now.
  change (30 * 60 * 1000) with 1800000.
  destruct (Z.leb_spec (t - now) 0) as [Hle|Hgt];
    [|destruct (Z.ltb_spec (t - now) 1800000) as [Hlt|Hge]]; simpl.
  - split; [eauto|]. split; intros H; lia.
  - split; [intros H; lia|]. split; [eauto|intros H; lia].
  - split; [intros H; lia|]. split; [intros H; lia|reflexivity].
Qed.

Lemma checkExpiration_cases_witness :
  let w := example_world ∅ ∅ None (fun _ => ok_reply) in
  (exists msg, fst (checkExpiration (Some "2025-12-31T23:00:00.000Z") w)
               = Ok (mkCheck true false (Some msg))) /\
  (exists msg, fst (checkExpiration (Some "2026-01-01T00:10:00.000Z") w)
               = Ok (mkCheck false true (Some msg))) /\
  fst (checkExpiration (Some "2026-01-02T00:00:00.000Z") w) = Ok (mkCheck false false None).
Proof.
  intros w. destruct (checkExpiration_cases w) as [_ H]. split; [|split].
  - apply (H "2025-12-31T23:00:00.000Z" (example_now - 3600000));
      [discriminate|reflexivity|]. vm_compute. intuition discriminate.
  - apply (H "2026-01-01T00:10:00.000Z" (example_now + 600000));
      [discriminate|reflexivity|]. vm_compute. intuition discriminate.
  - apply (H "2026-01-02T00:00:00.000Z" (example_now + 86400000));
      [discriminate|reflexivity|]. vm_compute. intuition discriminate.
Defined.

(** A string that is not a date, such as one that fails to parse, is
    neither expired nor expiring soon. *)
Lemma checkExpiration_invalid_date w s :
  Date_parse w s = NaN -> fst (checkExpiration (Some s) w) = Ok (mkCheck false false None).
Proof.
  intros H. unfold checkExpiration, bind, read, ret, Date_now.
  destruct s as [|c r]; [reflexivity|]. cbn [truthy_opt truthy js_or negb].
  rewrite H. reflexivity.
Qed.

(** ** Rate-limit wait *)

(** With no reset header, or one that starts with an integer, the wait is
    clamped between 1 and 60 seconds. *)
Lemma waitMs_clamped w (resetHeader : option string) :
  truthy_opt resetHeader = false \/ (exists n, parseInt (js_or resetHeader "") = Num n) ->
  exists ms, fst (waitMs resetHeader w) = Ok (Num ms) /\ 1000 <= ms <= 60000.
Proof.
  intros H. unfold waitMs, bind, ret, Date_now. simpl.
  destruct (truthy_opt resetHeader) eqn:E; simpl.
  - destruct H as [H|[n Hn]]; [discriminate|]. rewrite Hn. simpl.
    eexists. split; [reflexivity|]. lia.
  - eexists. split; [reflexivity|]. lia.
Qed.

(** A reset time more than 60 seconds ahead gives exactly 60 seconds, and a
    reset time in the past gives exactly 1 second. *)
Lemma waitMs_far_and_past w (resetHeader : string) (seconds : Z) :
  resetHeader <> "" ->
  parseInt resetHeader = Num seconds ->
  let now := clock w (ticks w) in
  (now + 60000 <= seconds * 1000 -> fst (waitMs (Some resetHeader) w) = Ok (Num 60000)) /\
  (seconds * 1000 <= now -> fst (waitMs (Some resetHeader) w) = Ok (Num 1000)).
Proof.
  intros Hne Hp now. unfold waitMs, bind, ret, Date_now.
  destruct resetHeader as [|c r]; [congruence|]. cbn [truthy_opt truthy js_or].
  rewrite Hp. simpl. fold now.
  split; intros H; do 2 f_equal; lia.
Qed.

(** Without a reset header the wait is the fallback of 60 seconds, less the
    time between the two readings of the clock, clamped. *)
Lemma waitMs_fallback w :
  fst (waitMs None w)
  = Ok (Num (Z.max (Z.min (clock w (ticks w) + 60000 - clock w (S (ticks w))) 60000) 1000)).
Proof. reflexivity. Qed.

(** C2, at a reset header that does not start with a number: [parseInt]
    gives NaN, which [Math.min] and [Math.max] let through, so the wait is
    NaN and not a duration between 1 and 60 seconds. *)
Theorem waitMs_not_a_number (w : World) :
  fst (waitMs (Some "soon") w) = Ok NaN.
Proof. reflexivity. Qed.

(** The retry then awaits a timer of NaN milliseconds. *)
Example retry_with_unreadable_reset :
  match client_get "/api/v1/me" []
          (example_world {[ "ASSAY_API_KEY" := "ask_live_abc123_s3cret" ]} ∅ None
             (fun n => if (n <? 1)%nat then rate_limited (Some "soon") else ok_reply))
  with
  | Some (Ok response, w') =>
      status response = 200 /\
      filter (fun e => bool_decide (is_http e = false)) (trace w')
      = [FsExists example_path; SetTimeout NaN;
         ConsoleWarn "Rate limited. Retrying in NaNs..."; FsExists example_path]
  | _ => False
  end.
Proof. vm_compute. split; reflexivity. Qed.

(** ** JSON: parsing what was printed *)

Lemma append_cons (x : ascii) (a b : string) : String x a +:+ b = String x (a +:+ b).
Proof. reflexivity. Qed.

Lemma append_empty (b : string) : "" +:+ b = b.
Proof. reflexivity. Qed.

Lemma append_assoc (a b c : string) : (a +:+ b) +:+ c = a +:+ (b +:+ c).
Proof.
  induction a as [|x a IH]; [reflexivity|]. rewrite !append_cons, IH. reflexivity.
Qed.

Lemma length_append (a b : string) :
  String.length (a +:+ b) = (String.length a + String.length b)%nat.
Proof.
  induction a as [|x a IH]; [reflexivity|]. rewrite append_cons. simpl. rewrite IH. reflexivity.
Qed.

Create Rewrite HintDb str.
Hint Rewrite append_assoc append_cons append_empty : str.

(** An escaped character reads back as the character. *)
Lemma parse_quote_char (c : ascii) (rest : string) :
  parse_chars (quote_char c +:+ rest)
  = match parse_chars rest with
    | Some (t, r) => Some (String c t, r)
    | None => None
    end.
Proof. destruct c as [[] [] [] [] [] [] [] []]; reflexivity. Qed.

(** A quoted string reads back as the string. *)
Lemma parse_quote (s rest : string) :
  parse_chars (quote_chars s +:+ String dquote rest) = Some (s, rest).
Proof.
  induction s as [|c s IH].
  - reflexivity.
  - cbn [quote_chars]. rewrite append_assoc, parse_quote_char, IH. reflexivity.
Qed.

Lemma serialize_string_object (props : list (string * string)) :
  JSON_stringify (string_object props)
  = bracket "{" "}" "" (map member_text props).
Proof.
  unfold JSON_stringify, string_object. cbn [serialize]. f_equal.
  rewrite map_map. apply map_ext. intros [k v]. reflexivity.
Qed.


Lemma parse_value_eq n s :
  parse_value (S n) s
  = match skip_ws s with
    | EmptyString => None
    | String c r =>
        if code c =? 123 then
          match skip_ws r with
          | String c' r' =>
              if code c' =? 125 then Some (JObject [], r') else parse_members n r []
          | EmptyString => None
          end
        else if code c =? 91 then
          match skip_ws r with
          | String c' r' =>
              if code c' =? 93 then Some (JArray [], r') else parse_elements n r []
          | EmptyString => None
          end
        else if code c =? 34 then
          match parse_chars r with
          | Some (str, rest) => Some (JString str, rest)
          | None => None
          end
        else
          match strip_prefix "true" (String c r) with
          | Some rest => Some (JBool true, rest)
          | None =>
          match strip_prefix "false" (String c r) with
          | Some rest => Some (JBool false, rest)
          | None =>
          match strip_prefix "null" (String c r) with
          | Some rest => Some (JNull, rest)
          | None =>
          match parse_number (String c r) with
          | Some (literal, rest) => Some (JNumber literal, rest)
          | None => None
          end end end end
    end.
Proof. reflexivity. Qed.

Lemma parse_members_eq n s acc :
  parse_members (S n) s acc
  = match skip_ws s with
    | String q r =>
        if code q =? 34 then
          match parse_chars r with
          | Some (k, r1) =>
              match skip_ws r1 with
              | String colon r2 =>
                  if code colon =? 58 then
                    match parse_value n r2 with
                    | Some (v, r3) =>
                        match skip_ws r3 with
                        | String d r4 =>
                            if code d =? 44 then parse_members n r4 (define_prop k v acc)
                            else if code d =? 125 then Some (JObject (define_prop k v acc), r4)
                            else None
                        | EmptyString => None
                        end
                    | None => None
                    end
                  else None
              | EmptyString => None
              end
          | None => None
          end
        else None
    | EmptyString => None
    end.
Proof. reflexivity. Qed.

#[local] Arguments parse_value : simpl never.
#[local] Arguments parse_members : simpl never.
#[local] Arguments parse_elements : simpl never.
#[local] Arguments parse_chars : simpl never.

(** One member of an indented object is read; what follows decides. *)
Lemma parse_member_step n k v rest acc :
  parse_members (S (S n)) (String newline (gap +:+ member_text (k, v) +:+ rest)) acc
  = match skip_ws rest with
    | String d r4 =>
        if code d =? 44 then parse_members (S n) r4 (define_prop k (JString v) acc)
        else if code d =? 125 then Some (JObject (define_prop k (JString v) acc), r4)
        else None
    | EmptyString => None
    end.
Proof.
  rewrite parse_members_eq. unfold member_text, quote, gap, str1. cbn [fst snd].
  autorewrite with str. simpl. rewrite parse_quote. simpl.
  rewrite parse_value_eq. simpl. rewrite parse_quote. reflexivity.
Qed.

Lemma parse_members_flat (props : list (string * string)) :
  forall (acc : list (string * JValue)) (n : nat) (rest : string),
    props <> [] ->
    (length props < n)%nat ->
    parse_members n
      (String newline (gap +:+ join separator (map member_text props)
                       +:+ String newline ("}" +:+ rest))) acc
    = Some (JObject (define_all props acc), rest).
Proof.
  induction props as [|[k v] ps IH]; intros acc n rest Hne Hn; [congruence|].
  destruct n as [|[|n]]; [simpl in Hn; lia..|].
  destruct ps as [|p ps].
  - cbn [map join]. rewrite parse_member_step. reflexivity.
  - cbn [map join]. rewrite !append_assoc. rewrite parse_member_step.
    unfold separator at 1, str1. autorewrite with str. simpl.
    apply IH; [discriminate|]. simpl in *. lia.
Qed.

Lemma member_text_head p : exists tail, member_text p = String dquote tail.
Proof. unfold member_text, quote. rewrite append_cons. eauto. Qed.

Lemma join_head p ps :
  exists tail, join separator (map member_text (p :: ps)) = String dquote tail.
Proof.
  destruct (member_text_head p) as [t Ht]. cbn [map join].
  destruct (map member_text ps); rewrite Ht; [eauto|]. rewrite append_cons. eauto.
Qed.

Lemma join_length props :
  (length props <= String.length (join separator (map member_text props)))%nat.
Proof.
  induction props as [|p ps IH]; [simpl; lia|].
  destruct (member_text_head p) as [t Ht]. cbn [map join].
  destruct ps as [|q ps].
  - cbn [map]. rewrite Ht. simpl. lia.
  - cbn [map] in *. rewrite !length_append, Ht. simpl in *. lia.
Qed.

(** A printed object of strings parses to the properties defined in order. *)
Lemma JSON_parse_string_object (props : list (string * string)) :
  props <> [] ->
  JSON_parse (JSON_stringify (string_object props))
  = Some (JObject (define_all props [])).
Proof.
  intros Hne. rewrite serialize_string_object. unfold bracket.
  destruct (map member_text props) as [|m ms] eqn:E; [destruct props; simpl in E; congruence|].
  rewrite <- E. clear E m ms. unfold JSON_parse.
  remember (String newline (gap +:+ join separator (map member_text props)
                            +:+ String newline ("}" +:+ ""))) as body eqn:Hbody.
  match goal with
  | |- context [parse_value (S (String.length ?t)) ?t] =>
      replace t with (String "{" body)
        by (subst body; unfold separator, str1; autorewrite with str; reflexivity)
  end.
  assert (Hskip : exists tail, skip_ws body = String dquote tail).
  { destruct props as [|p ps]; [congruence|]. destruct (join_head p ps) as [t Ht].
    subst body. rewrite Ht. unfold gap. autorewrite with str. simpl. eauto. }
  destruct Hskip as [tail Htail].
  rewrite parse_value_eq. simpl. rewrite Htail. simpl. subst body.
  rewrite parse_members_flat; [reflexivity|assumption|].
  cbn [String.length]. rewrite !length_append. pose proof (join_length props). lia.
Qed.

(** ** Saving and loading the config *)

Lemma Config_object_props (c : Config) : Config_object c = string_object (Config_props c).
Proof. destruct c as [[k|] [e|] b f]; reflexivity. Qed.

Lemma Config_props_defined (c : Config) :
  JObject (define_all (Config_props c) []) = Config_object c.
Proof. destruct c as [[k|] [e|] b f]; reflexivity. Qed.

Lemma Config_props_nonempty (c : Config) : Config_props c <> [].
Proof. destruct c as [[k|] [e|] b f]; discriminate. Qed.

(** The text written for a [Config] parses back to its object. *)
Lemma JSON_parse_Config (c : Config) :
  JSON_parse (JSON_stringify (Config_object c)) = Some (Config_object c).
Proof.
  rewrite Config_object_props, JSON_parse_string_object by apply Config_props_nonempty.
  rewrite Config_props_defined, Config_object_props. reflexivity.
Qed.

Ltac case_match_goal :=
  match goal with
  | |- context [match ?x with _ => _ end] =>
      lazymatch x with
      | context [match _ with _ => _ end] => fail
      | _ => destruct x eqn:?
      end
  end.

(** When [saveConfig] returns, the config path holds the text of the value,
    and the path is where it was. *)
Lemma saveConfig_written (v : JValue) (w : World) :
  fst (saveConfig v w) = Ok tt ->
  fs (snd (saveConfig v w)) !! getConfigPath w = Some (File (JSON_stringify v)) /\
  getConfigPath (snd (saveConfig v w)) = getConfigPath w.
Proof.
  unfold saveConfig, existsSync, mkdirSync, writeFileSync, chmodSync. run.
  repeat (case_match_goal; simpl; try discriminate); intros _;
    (split; [apply lookup_insert_eq|reflexivity]).
Qed.

(** C8: when the object of a [Config] whose string fields are ASCII is
    saved and then loaded, the loaded value is that object again, so it
    equals the saved config field for field.  (The bytes of the model make
    the round trip whatever they are; ASCII is where they are the
    characters of the JavaScript string.) *)
Theorem save_then_load (c : Config) (w : World) :
  ascii_config c = true ->
  fst (saveConfig (Config_object c) w) = Ok tt ->
  let loaded := fst (loadConfig (snd (saveConfig (Config_object c) w))) in
  loaded = Ok (Config_object c) /\
  own_string (Config_object c) "keyId" = keyId c /\
  own_string (Config_object c) "apiKeyExpiresAt" = apiKeyExpiresAt c /\
  own_string (Config_object c) "baseUrl" = Some (baseUrl c) /\
  own_string (Config_object c) "outputFormat" = Some (OutputFormat_string (outputFormat c)).
Proof.
  intros _ Hsave loaded. split.
  - destruct (saveConfig_written _ _ Hsave) as [Hfile Hpath]. subst loaded.
    apply loadConfig_file with (content := JSON_stringify (Config_object c)).
    + rewrite Hpath. exact Hfile.
    + apply JSON_parse_Config.
  - destruct c as [[k|] [e|] b f]; repeat split.
Qed.

Lemma save_then_load_witness :
  let c := example_config (Some "abc123") (Some "2026-01-02T00:00:00.000Z") in
  let w := example_world ∅ ∅ None (fun _ => ok_reply) in
  fst (loadConfig (snd (saveConfig (Config_object c) w))) = Ok (Config_object c).
Proof.
  intros c w. apply (save_then_load c w); vm_compute; reflexivity.
Defined.

(** ** The request pipeline *)

Lemma preserves_ret {X A} (f : World -> X) (a : A) : preserves f (ret a).
Proof. intros w. reflexivity. Qed.

Lemma preserves_throw {X A} (f : World -> X) e : preserves f (@throw A e).
Proof. intros w. reflexivity. Qed.

Lemma preserves_read {X A} (f : World -> X) (g : World -> A) : preserves f (read g).
Proof. intros w. reflexivity. Qed.

Lemma preserves_bind {X A B} (f : World -> X) (m : M A) (k : A -> M B) :
  preserves f m -> (forall a, preserves f (k a)) -> preserves f (bind m k).
Proof.
  intros Hm Hk w. unfold bind. specialize (Hm w).
  destruct (m w) as [[a|e] w1]; simpl in *; [|assumption].
  rewrite (Hk a w1). assumption.
Qed.

Lemma preserves_try_catch {X A} (f : World -> X) (m : M A) (h : Error -> M A) :
  preserves f m -> (forall e, preserves f (h e)) -> preserves f (try_catch m h).
Proof.
  intros Hm Hh w. unfold try_catch. specialize (Hm w).
  destruct (m w) as [[a|e] w1]; simpl in *; [assumption|].
  rewrite (Hh e w1). assumption.
Qed.






Lemma http_count_app evs t :
  forallb not_http evs = true -> http_count (evs ++ t) = http_count t.
Proof.
  induction evs as [|e evs IH]; [reflexivity|]. simpl. intros H.
  apply andb_true_iff in H as [He Hr]. unfold not_http in He.
  destruct e; try discriminate; simpl; auto.
Qed.

Lemma emits_http_count {A} (m : M A) w :
  emits not_http m -> http_count (trace (snd (m w))) = http_count (trace w).
Proof. intros H. destruct (H w) as (evs & -> & Hp). apply http_count_app, Hp. Qed.

Lemma fs_not_http e : is_fs e = true -> not_http e = true.
Proof. unfold not_http. destruct e; simpl; congruence. Qed.

Lemma fs_or_keytar_not_http e : fs_or_keytar e = true -> not_http e = true.
Proof. unfold not_http, fs_or_keytar. destruct e; simpl; congruence. Qed.

Lemma emits_Date_now P : emits P Date_now.
Proof. intros w. exists []. split; reflexivity. Qed.

Lemma emits_checkExpiration P e : emits P (checkExpiration e).
Proof.
  unfold checkExpiration. destruct (negb _); [apply emits_ret|].
  apply emits_bind; [apply emits_read|intros parse].
  apply emits_bind; [apply emits_Date_now|intros now].
  repeat emits_step.
Qed.

Lemma emits_waitMs P h : emits P (waitMs h).
Proof.
  unfold waitMs. apply emits_bind.
  - destruct (truthy_opt h); [apply emits_ret|].
    apply emits_bind; [apply emits_Date_now|intros; apply emits_ret].
  - intros t. apply emits_bind; [apply emits_Date_now|intros; apply emits_ret].
Qed.

Lemma host_checkExpiration e : preserves host (checkExpiration e).
Proof.
  intros w. unfold checkExpiration, bind, read, ret, Date_now.
  destruct (negb _); [reflexivity|]. simpl.
  destruct (js_le _ _); [reflexivity|]. destruct (js_lt _ _); reflexivity.
Qed.

Lemma host_waitMs h : preserves host (waitMs h).
Proof.
  intros w. unfold waitMs, bind, ret, Date_now. destruct (truthy_opt h); reflexivity.
Qed.

Lemma usable_host key w w' : host w = host w' -> usable key w -> usable key w'.
Proof.
  intros H (Hkey & props & Hload & Hty & Hexp). split.
  - rewrite <- (proj2 stable_getApiKey w w' H). assumption.
  - exists props. rewrite <- (proj2 stable_loadConfig w w' H).
    repeat split; try assumption. intros n. host_eqs H. unfold expired_at in *.
    rewrite <- Hd, <- Hc. apply Hexp.
Qed.

Lemma emits_not_http_getApiKey : emits not_http getApiKey.
Proof. eapply emits_weaken; [apply fs_or_keytar_not_http|apply emits_getApiKey]. Qed.

Lemma emits_not_http_loadConfig : emits not_http loadConfig.
Proof. eapply emits_weaken; [apply fs_not_http|apply emits_loadConfig]. Qed.

(** A credential that is not expired at the next reading passes the check. *)
Lemma checkExpiration_live w e :
  expired_at w e (clock w (ticks w)) = false ->
  exists c w', checkExpiration e w = (Ok c, w') /\ expired c = false /\
               host w' = host w /\ trace w' = trace w.
Proof.
  unfold expired_at, checkExpiration, bind, read, ret, Date_now. intros H.
  destruct (truthy_opt e); simpl in *; [|eauto 10]. rewrite H.
  destruct (js_lt _ _); eauto 10.
Qed.

(** With a usable credential the request interceptor attaches the key and
    lets the request through, without sending anything itself. *)
Lemma request_interceptor_usable key config w :
  usable key w ->
  exists w',
    request_interceptor config w = (Ok (set_header "X-API-Key" key config), w') /\
    host w' = host w /\ http_count (trace w') = http_count (trace w).
Proof.
  intros Hu. pose proof Hu as (Hkey & _).
  pose proof (getApiKey_truthy w key Hkey) as Htr.
  unfold request_interceptor, bind.
  pose proof (proj1 stable_getApiKey w) as Hh1.
  pose proof (emits_http_count getApiKey w emits_not_http_getApiKey) as Hc1.
  destruct (getApiKey w) as [r1 w1]. simpl in Hkey, Hh1, Hc1. subst r1.
  cbn [truthy_opt]. rewrite Htr. cbn [negb].
  apply (usable_host key w w1) in Hu; [|congruence].
  destruct Hu as (_ & props & Hload & Hty & Hexp).
  pose proof (proj1 stable_loadConfig w1) as Hh2.
  pose proof (emits_http_count loadConfig w1 emits_not_http_loadConfig) as Hc2.
  destruct (loadConfig w1) as [r2 w2]. simpl in Hload, Hh2, Hc2. subst r2.
  cbn [get_field ret].
  assert (Hlive : expired_at w2 (own_string (JObject props) "apiKeyExpiresAt")
                    (clock w2 (ticks w2)) = false).
  { pose proof Hh2 as Hh2'. host_eqs Hh2'. unfold expired_at in *.
    rewrite Hd, Hc. apply Hexp. }
  destruct (checkExpiration_live _ _ Hlive) as (c & w3 & Hcheck & Hne & Hh3 & Ht3).
  rewrite Hcheck, Hne.
  rewrite truthy_true by exact Htr.
  destruct (expiringSoon c && truthy_opt (message c)); unfold console_warn, emit, ret;
    eexists; (split; [reflexivity|]); rewrite ?host_set_trace; cbn [trace set_trace http_count];
    split; congruence.
Qed.

Lemma dispatchRequest_eq config w :
  dispatchRequest config w
  = (match server w (http_count (trace w)) with
     | Responded r =>
         if (200 <=? status r) && (status r <? 300) then Ok r
         else Throw (AxiosError (status_error_code (status r)) config (Some r))
     | Failed c => Throw (AxiosError c config None)
     end,
     set_trace (HttpSend config :: trace w) w).
Proof.
  unfold dispatchRequest, bind, read, emit, ret, throw. simpl.
  destruct (server w (http_count (trace w))) as [r|c]; [|reflexivity].
  destruct ((200 <=? status r) && (status r <? 300)); reflexivity.
Qed.

Lemma response_fulfilled_usable key r w :
  usable key w ->
  exists w', response_fulfilled r w = (Ok r, w') /\
             host w' = host w /\ http_count (trace w') = http_count (trace w).
Proof.
  intros (_ & props & Hload & _). unfold response_fulfilled, bind.
  destruct (truthy_opt _); [|exists w; auto].
  pose proof (proj1 stable_loadConfig w) as Hh.
  pose proof (emits_http_count loadConfig w emits_not_http_loadConfig) as Hc.
  destruct (loadConfig w) as [r2 w2]. simpl in Hload, Hh, Hc. subst r2.
  exists w2. auto.
Qed.

Lemma waitMs_returns h w :
  exists n w', waitMs h w = (Ok n, w') /\ host w' = host w /\ trace w' = trace w.
Proof.
  unfold waitMs, bind, ret, Date_now. destruct (truthy_opt h); simpl; eauto 10.
Qed.

(** The error interceptor on a 429: retry while fewer than 3 retries were
    made, otherwise reject; nothing is sent by the interceptor itself. *)
Lemma response_rejected_429 c config r w :
  status r = 429 ->
  exists w',
    response_rejected (AxiosError c config (Some r)) w
    = (if retries config <? 3 then Ok (set_retryCount (retries config + 1) config)
       else Throw (AxiosError c config (Some r)), w') /\
    host w' = host w /\ http_count (trace w') = http_count (trace w).
Proof.
  intros Hs. unfold response_rejected, bind. rewrite Hs. cbn [Z.eqb Pos.eqb].
  destruct (waitMs_returns (response_headers r !! "x-ratelimit-reset") w)
    as (n & w1 & -> & Hh & Ht).
  destruct (retries config <? 3).
  - unfold console_warn, sleep, emit, ret. eexists. split; [reflexivity|].
    rewrite !host_set_trace. cbn [trace set_trace http_count]. split; congruence.
  - exists w1. unfold throw. repeat split; congruence.
Qed.

Lemma response_rejected_other e w :
  match e with
  | AxiosError _ _ (Some r) => status r <> 429
  | _ => True
  end ->
  response_rejected e w = (Throw e, w).
Proof.
  intros H. unfold response_rejected. destruct e as [m|c config [r|]]; try reflexivity.
  destruct (Z.eqb_spec (status r) 429); [contradiction|reflexivity].
Qed.

Lemma retries_set_header n v c : retries (set_header n v c) = retries c.
Proof. reflexivity. Qed.

(** One attempt with a usable credential: the request is sent once, and the
    server's reply decides between the response, a retry and an error. *)
Lemma attempt_usable key config w :
  usable key w ->
  let config' := set_header "X-API-Key" key config in
  exists w',
    attempt config w
    = (match server w (http_count (trace w)) with
       | Responded r =>
           if (200 <=? status r) && (status r <? 300) then Ok (inl r)
           else if (status r =? 429) && (retries config <? 3)
                then Ok (inr (set_retryCount (retries config + 1) config'))
                else Throw (AxiosError (status_error_code (status r)) config' (Some r))
       | Failed c => Throw (AxiosError c config' None)
       end, w') /\
    host w' = host w /\ http_count (trace w') = S (http_count (trace w)).
Proof.
  intros Hu config'. unfold attempt, bind at 1.
  destruct (request_interceptor_usable key config w Hu) as (w1 & -> & Hh1 & Hc1).
  rewrite dispatchRequest_eq. fold config'.
  assert (Hs : server w1 = server w) by (host_eqs Hh1; assumption).
  rewrite Hs, Hc1.
  set (w2 := set_trace (HttpSend config' :: trace w1) w1).
  assert (Hh2 : host w2 = host w) by (subst w2; rewrite host_set_trace; assumption).
  assert (Hc2 : http_count (trace w2) = S (http_count (trace w)))
    by (subst w2; simpl; congruence).
  destruct (server w (http_count (trace w))) as [r|c].
  - destruct ((200 <=? status r) && (status r <? 300)) eqn:E2xx.
    + destruct (response_fulfilled_usable key r w2) as (w3 & Hf & Hh3 & Hc3).
      { apply (usable_host key w w2); [congruence|assumption]. }
      unfold bind. rewrite Hf. exists w3. unfold ret. repeat split; congruence.
    + destruct (Z.eqb_spec (status r) 429) as [H429|Hne].
      * destruct (response_rejected_429 (status_error_code (status r)) config' r w2 H429)
          as (w3 & Hr & Hh3 & Hc3).
        unfold bind. rewrite Hr. subst config'. rewrite retries_set_header.
        exists w3. cbn [andb]. destruct (retries config <? 3); unfold ret;
          repeat split; congruence.
      * unfold bind. rewrite response_rejected_other by exact Hne.
        exists w2. cbn [andb]. repeat split; assumption.
  - unfold bind. rewrite response_rejected_other by exact I.
    exists w2. repeat split; assumption.
Qed.

(** ** Retry on rate limiting *)

Lemma client_request_eq fuel config w :
  client_request (S fuel) config w
  = match attempt config w with
    | (Ok (inl response), w') => Some (Ok response, w')
    | (Ok (inr config'), w') => client_request fuel config' w'
    | (Throw error, w') => Some (Throw error, w')
    end.
Proof. reflexivity. Qed.

(** A 429 with fewer than 3 retries behind it leads to one more attempt. *)
Lemma client_request_retry key fuel config w :
  usable key w ->
  rate_limited_at w (http_count (trace w)) ->
  retries config < 3 ->
  exists w',
    client_request (S fuel) config w
    = client_request fuel
        (set_retryCount (retries config + 1) (set_header "X-API-Key" key config)) w' /\
    usable key w' /\ server w' = server w /\
    http_count (trace w') = S (http_count (trace w)).
Proof.
  intros Hu (r & Hr & Hs) Hlt.
  destruct (attempt_usable key config w Hu) as (w' & Ha & Hh & Hc).
  rewrite client_request_eq, Ha, Hr, Hs.
  destruct (Z.ltb_spec (retries config) 3); [|lia]. simpl.
  exists w'. split; [reflexivity|]. split; [|split; [|assumption]].
  - apply (usable_host key w w'); [congruence|assumption].
  - host_eqs Hh. assumption.
Qed.

(** The reply to the last attempt is returned when it is a success, and
    rejected when it is a 429 after 3 retries. *)
Lemma client_request_last key fuel config w r :
  usable key w ->
  server w (http_count (trace w)) = Responded r ->
  exists w',
    http_count (trace w') = S (http_count (trace w)) /\
    (status r = 200 -> client_request (S fuel) config w = Some (Ok r, w')) /\
    (status r = 429 -> retries config = 3 ->
     client_request (S fuel) config w
     = Some (Throw (AxiosError "ERR_BAD_REQUEST"
                      (set_header "X-API-Key" key config) (Some r)), w')).
Proof.
  intros Hu Hr.
  destruct (attempt_usable key config w Hu) as (w' & Ha & Hh & Hc).
  exists w'. split; [assumption|]. rewrite client_request_eq, Ha, Hr.
  split.
  - intros ->. reflexivity.
  - intros -> ->. reflexivity.
Qed.

(** C1: with a usable credential, when the server answers the first three
    attempts of a request with 429 and the fourth with 200, [client.get]
    makes exactly 4 attempts and returns the 200 response; when the fourth
    answer is a 429 as well, it makes exactly 4 attempts and rejects with
    the error of that last response.  The retry counter of a new request
    starts at 0. *)
Theorem retry_on_rate_limit (key url : string) (params : list (string * string))
    (w : World) (last : Response) :
  usable key w ->
  let n := http_count (trace w) in
  rate_limited_at w n ->
  rate_limited_at w (S n) ->
  rate_limited_at w (S (S n)) ->
  server w (S (S (S n))) = Responded last ->
  retries (get_request url params) = 0 /\
  (status last = 200 ->
   exists w', client_get url params w = Some (Ok last, w') /\
              http_count (trace w') = (n + 4)%nat) /\
  (status last = 429 ->
   exists w' config,
     client_get url params w
     = Some (Throw (AxiosError "ERR_BAD_REQUEST" config (Some last)), w') /\
     http_count (trace w') = (n + 4)%nat).
Proof.
  intros Hu n H1 H2 H3 H4. split; [reflexivity|]. unfold client_get.
  destruct (client_request_retry key 3 (get_request url params) w Hu H1)
    as (w1 & -> & Hu1 & Hs1 & Hc1); [reflexivity|].
  set (c1 := set_retryCount _ _).
  assert (R1 : retries c1 = 1) by reflexivity.
  destruct (client_request_retry key 2 c1 w1 Hu1) as (w2 & -> & Hu2 & Hs2 & Hc2);
    [unfold rate_limited_at; rewrite Hs1, Hc1; exact H2|lia|].
  set (c2 := set_retryCount _ _).
  assert (R2 : retries c2 = 2) by (subst c2; rewrite R1; reflexivity).
  destruct (client_request_retry key 1 c2 w2 Hu2) as (w3 & -> & Hu3 & Hs3 & Hc3);
    [unfold rate_limited_at; rewrite Hs2, Hs1, Hc2, Hc1; exact H3|lia|].
  set (c3 := set_retryCount _ _).
  assert (R3 : retries c3 = 3) by (subst c3; rewrite R2; reflexivity).
  destruct (client_request_last key 0 c3 w3 last Hu3) as (w4 & Hc4 & Hok & Herr);
    [rewrite Hs3, Hs2, Hs1, Hc3, Hc2, Hc1; exact H4|].
  assert (Hcount : http_count (trace w4) = (n + 4)%nat) by (subst n; lia).
  split.
  - intros H200. exists w4. split; [apply Hok, H200|exact Hcount].
  - intros H429. exists w4. eexists. split; [apply Herr; [exact H429|exact R3]|exact Hcount].
Qed.

Lemma retry_on_rate_limit_witness :
  let key := "ask_live_abc123_s3cret" in
  let w1 := example_world {[ "ASSAY_API_KEY" := key ]} ∅ None three_then_ok in
  let w2 := example_world {[ "ASSAY_API_KEY" := key ]} ∅ None (fun _ => rate_limited None) in
  (exists w', client_get "/api/v1/me" [] w1 = Some (Ok (mkResponse 200 ∅ "{}"), w') /\
              http_count (trace w') = 4%nat) /\
  (exists w' config,
     client_get "/api/v1/me" [] w2
     = Some (Throw (AxiosError "ERR_BAD_REQUEST" config (Some (mkResponse 429 ∅ ""))), w') /\
     http_count (trace w') = 4%nat).
Proof.
  intros key w1 w2.
  assert (Hu : forall srv, usable key (example_world {[ "ASSAY_API_KEY" := key ]} ∅ None srv)).
  { intros srv. split; [reflexivity|].
    exists [("baseUrl", JString "https://us-east4-pdfsummaries.cloudfunctions.net/api");
            ("outputFormat", JString "json")].
    split; [reflexivity|]. split; [reflexivity|]. intros n. reflexivity. }
  split.
  - destruct (retry_on_rate_limit key "/api/v1/me" [] w1 (mkResponse 200 ∅ "{}"))
      as (_ & H & _).
    + apply Hu.
    + exists (mkResponse 429 ∅ ""). split; reflexivity.
    + exists (mkResponse 429 ∅ ""). split; reflexivity.
    + exists (mkResponse 429 ∅ ""). split; reflexivity.
    + reflexivity.
    + apply H. reflexivity.
  - destruct (retry_on_rate_limit key "/api/v1/me" [] w2 (mkResponse 429 ∅ ""))
      as (_ & _ & H).
    + apply Hu.
    + exists (mkResponse 429 ∅ ""). split; reflexivity.
    + exists (mkResponse 429 ∅ ""). split; reflexivity.
    + exists (mkResponse 429 ∅ ""). split; reflexivity.
    + reflexivity.
    + apply H. reflexivity.
Defined.

(** ** Refusing to send *)

Lemma emits_request_interceptor config : emits not_http (request_interceptor config).
Proof.
  unfold request_interceptor.
  apply emits_bind; [apply emits_not_http_getApiKey|intros k].
  apply emits_if; [apply emits_throw|].
  apply emits_bind; [apply emits_not_http_loadConfig|intros c].
  apply emits_bind; [unfold get_field; destruct c; repeat emits_step|intros e].
  apply emits_bind; [apply emits_checkExpiration|intros chk].
  apply emits_if; [apply emits_throw|].
  apply emits_bind; [|intros; apply emits_ret].
  apply emits_if; [apply emits_emit; reflexivity|apply emits_ret].
Qed.

(** An error thrown by the request interceptor reaches the caller as it
    is: the error interceptor retries on responses only. *)
Lemma client_request_refused fuel config w msg :
  fst (request_interceptor config w) = Throw (JsError msg) ->
  client_request (S fuel) config w
  = Some (Throw (JsError msg), snd (request_interceptor config w)).
Proof.
  intros H. rewrite client_request_eq. unfold attempt, bind at 1.
  destruct (request_interceptor config w) as [r w1]. simpl in *. subst r. reflexivity.
Qed.






(** ** Where requests go *)

Lemma request_interceptor_result config w c :
  fst (request_interceptor config w) = Ok c ->
  exists k, c = set_header "X-API-Key" k config.
Proof.
  unfold request_interceptor, bind.
  destruct (getApiKey w) as [[k|e] w1]; [|discriminate]. simpl.
  destruct (negb (truthy_opt k)); [discriminate|].
  destruct (loadConfig w1) as [[v|e] w2]; [|discriminate]. simpl.
  destruct (get_field v "apiKeyExpiresAt" w2) as [[x|e] w3]; [|discriminate]. simpl.
  destruct (checkExpiration x w3) as [[chk|e] w4]; [|discriminate]. simpl.
  destruct (expired chk); [discriminate|].
  destruct (expiringSoon chk && truthy_opt (message chk)); simpl; intros [= <-]; eauto.
Qed.

Lemma emits_response_fulfilled r : emits not_http (response_fulfilled r).
Proof.
  unfold response_fulfilled. apply emits_bind; [|intros; apply emits_ret].
  apply emits_if; [|apply emits_ret].
  apply emits_bind; [apply emits_not_http_loadConfig|intros c].
  unfold set_field. destruct c; repeat emits_step.
Qed.

Lemma emits_response_rejected e : emits not_http (response_rejected e).
Proof.
  unfold response_rejected. destruct e as [m|c config [r|]]; try apply emits_throw.
  destruct (status r =? 429); [|apply emits_throw].
  apply emits_bind; [apply emits_waitMs|intros n].
  apply emits_if; [|apply emits_throw].
  unfold console_warn, sleep. repeat emits_step.
Qed.

Lemma response_rejected_retry e w c :
  fst (response_rejected e w) = Ok c ->
  exists errcode config r,
    e = AxiosError errcode config (Some r) /\
    c = set_retryCount (retries config + 1) config /\ retries config < 3.
Proof.
  unfold response_rejected. destruct e as [m|errcode config [r|]]; try discriminate.
  destruct (status r =? 429); [|discriminate]. unfold bind.
  destruct (waitMs_returns (response_headers r !! "x-ratelimit-reset") w)
    as (n & w1 & -> & _).
  destruct (Z.ltb_spec (retries config) 3); [|discriminate].
  simpl. intros [= <-]. eauto 7.
Qed.

Lemma sent_as_not_http b u e : not_http e = true -> sent_as b u e = true.
Proof. unfold not_http. destruct e; simpl; congruence. Qed.

Lemma throws_js_ret {A} (a : A) : throws_js (ret a).
Proof. intros w e H. discriminate. Qed.

Lemma throws_js_throw {A} msg : throws_js (@throw A (JsError msg)).
Proof. intros w e [= <-]. eauto. Qed.

Lemma throws_js_read {A} (f : World -> A) : throws_js (read f).
Proof. intros w e H. discriminate. Qed.

Lemma throws_js_emit ev : throws_js (emit ev).
Proof. intros w e H. discriminate. Qed.

Lemma throws_js_bind {A B} (m : M A) (k : A -> M B) :
  throws_js m -> (forall a, throws_js (k a)) -> throws_js (bind m k).
Proof.
  intros Hm Hk w e. unfold bind. specialize (Hm w).
  destruct (m w) as [[a|e1] w1]; simpl in *.
  - apply Hk.
  - intros [= <-]. apply Hm. reflexivity.
Qed.

Lemma throws_js_try_catch {A} (m : M A) (h : Error -> M A) :
  (forall e, throws_js (h e)) -> throws_js (try_catch m h).
Proof.
  intros Hh w e. unfold try_catch.
  destruct (m w) as [[a|e1] w1]; simpl; [discriminate|apply Hh].
Qed.

Ltac throws_step :=
  first
    [ apply throws_js_ret
    | apply throws_js_throw
    | apply throws_js_read
    | apply throws_js_emit
    | apply throws_js_bind; [|intros ?]
    | apply throws_js_try_catch; intros ?
    | match goal with
      | |- throws_js (if ?b then _ else _) => destruct b
      | |- throws_js (match ?x with _ => _ end) => destruct x
      end ].

Lemma throws_js_loadConfig : throws_js loadConfig.
Proof. unfold loadConfig, existsSync, readFileSync. repeat throws_step. Qed.

Lemma throws_js_getApiKey : throws_js getApiKey.
Proof.
  unfold getApiKey. apply throws_js_bind; [apply throws_js_read|intros e].
  destruct (truthy_opt _); [apply throws_js_ret|].
  apply throws_js_bind; [apply throws_js_loadConfig|intros c].
  apply throws_js_bind; [unfold get_field; destruct c; repeat throws_step|intros k].
  destruct (negb _); [apply throws_js_ret|].
  apply throws_js_bind; [|intros s; destruct (negb _); apply throws_js_ret].
  unfold getApiKeySecret, isKeychainAvailable, keytar_getPassword.
  apply throws_js_bind; [|intros b; repeat throws_step].
  apply throws_js_bind; [apply throws_js_read|intros cached].
  destruct cached; [apply throws_js_ret|]. apply throws_js_try_catch. intros e0.
  apply throws_js_bind; [|intros; apply throws_js_ret].
  intros w e1 H. discriminate.
Qed.

Lemma throws_js_checkExpiration x : throws_js (checkExpiration x).
Proof.
  intros w e. unfold checkExpiration, bind, read, ret, Date_now.
  destruct (negb _); [discriminate|]. simpl.
  destruct (js_le _ _); [discriminate|]. destruct (js_lt _ _); discriminate.
Qed.

Lemma throws_js_request_interceptor config : throws_js (request_interceptor config).
Proof.
  unfold request_interceptor.
  apply throws_js_bind; [apply throws_js_getApiKey|intros k].
  destruct (negb _); [apply throws_js_throw|].
  apply throws_js_bind; [apply throws_js_loadConfig|intros c].
  apply throws_js_bind; [unfold get_field; destruct c; repeat throws_step|intros x].
  apply throws_js_bind; [apply throws_js_checkExpiration|intros chk].
  destruct (expired chk); [apply throws_js_throw|].
  unfold console_warn. repeat throws_step.
Qed.

(** What the adapter returns or throws for the request it sent. *)
Lemma dispatchRequest_error config w e :
  fst (dispatchRequest config w) = Throw e ->
  exists errcode response, e = AxiosError errcode config response.
Proof.
  rewrite dispatchRequest_eq. simpl.
  destruct (server w _) as [r|c].
  - destruct ((200 <=? status r) && (status r <? 300)); [discriminate|].
    intros [= <-]. eauto.
  - intros [= <-]. eauto.
Qed.

(** One attempt sends at most the request it was given, with the same base
    URL and relative URL, and a retry keeps both. *)
Lemma attempt_sent_as config w :
  (exists evs,
     trace (snd (attempt config w)) = evs ++ trace w /\
     forallb (sent_as (baseURL config) (url config)) evs = true) /\
  (forall c, fst (attempt config w) = Ok (inr c) ->
             baseURL c = baseURL config /\ url c = url config /\
             retries config < 3 /\ retries c = retries config + 1).
Proof.
  set (P := sent_as (baseURL config) (url config)).
  assert (HP : forall A (m : M A), emits not_http m -> emits P m).
  { intros A m. apply emits_weaken. apply sent_as_not_http. }
  unfold attempt, bind.
  pose proof (request_interceptor_result config w) as Hres.
  pose proof (throws_js_request_interceptor config w) as Hjs.
  destruct (HP _ _ (emits_request_interceptor config) w) as (evs1 & He1 & Hp1).
  destruct (request_interceptor config w) as [[c1|e1] w1]; simpl in He1, Hres, Hjs.
  - destruct (Hres c1 eq_refl) as [k ->]. clear Hres Hjs.
    set (c1 := set_header "X-API-Key" k config).
    pose proof (dispatchRequest_error c1 w1) as Herr.
    assert (He2 : trace (snd (dispatchRequest c1 w1)) = (HttpSend c1 :: evs1) ++ trace w)
      by (rewrite dispatchRequest_eq; simpl; rewrite He1; reflexivity).
    assert (Hp2 : forallb P (HttpSend c1 :: evs1) = true)
      by (subst P; simpl; rewrite !String.eqb_refl, Hp1; reflexivity).
    destruct (dispatchRequest c1 w1) as [[r|e] w2]; simpl in He2, Herr.
    + destruct (HP _ _ (emits_response_fulfilled r) w2) as (evs3 & He3 & Hp3).
      destruct (response_fulfilled r w2) as [[r'|e'] w3]; simpl in *;
        (split; [|intros c Hc; discriminate]);
        exists (evs3 ++ HttpSend c1 :: evs1);
        (split; [rewrite He3, He2, <- app_assoc; reflexivity|]);
        rewrite forallb_app, Hp3; exact Hp2.
    + destruct (HP _ _ (emits_response_rejected e) w2) as (evs3 & He3 & Hp3).
      pose proof (response_rejected_retry e w2) as Hretry.
      destruct (Herr e eq_refl) as (errcode & response & ->).
      destruct (response_rejected _ w2) as [[c3|e'] w3]; simpl in *;
        (split;
         [exists (evs3 ++ HttpSend c1 :: evs1);
          (split; [rewrite He3, He2, <- app_assoc; reflexivity|]);
          rewrite forallb_app, Hp3; exact Hp2|]);
        [|intros c Hc; discriminate].
      intros c [= <-].
      destruct (Hretry c3 eq_refl) as (errcode' & cfg & r & Heq & -> & Hlt).
      injection Heq as _ <- _. repeat split; assumption.
  - destruct (Hjs e1 eq_refl) as [msg ->]. simpl.
    split; [exists evs1; auto|intros c Hc; discriminate].
Qed.


(** The fuel never runs out: a request that has been retried [k] times
    settles within [4 - k] attempts. *)
Lemma client_request_settles fuel :
  forall config w,
    (1 <= fuel)%nat ->
    4 - retries config <= Z.of_nat fuel ->
    exists r w', client_request fuel config w = Some (r, w').
Proof.
  induction fuel as [|fuel IH]; intros config w H1 H4; [lia|].
  rewrite client_request_eq.
  destruct (attempt_sent_as config w) as (_ & Hretry).
  destruct (attempt config w) as [[[resp|c]|e] w1]; simpl in Hretry; eauto.
  destruct (Hretry c eq_refl) as (_ & _ & Hlt & Hr).
  apply IH; lia.
Qed.




(** * Further properties of the code *)

(** ** Parsing an API key *)

Example parseApiKey_examples :
  parseApiKey "ask_live_abc123_s3cret" = Some (mkKeyParts "abc123" "s3cret") /\
  parseApiKey "ask_live_abc_de_f" = Some (mkKeyParts "abc" "de_f") /\
  parseApiKey "ask_live__x" = Some (mkKeyParts "" "x") /\
  parseApiKey "ask_live_abc_" = Some (mkKeyParts "abc" "") /\
  parseApiKey "ask_live_abc" = None /\
  parseApiKey "ask_live_" = None /\
  parseApiKey "not_a_key" = None /\
  parseApiKey "" = None.
Proof. repeat split. Qed.

Example formatTimeRemaining_examples :
  formatTimeRemaining (Num 59) = "59 seconds" /\
  formatTimeRemaining (Num 60) = "1 minutes" /\
  formatTimeRemaining (Num 3599) = "59 minutes" /\
  formatTimeRemaining (Num 86399) = "23 hours" /\
  formatTimeRemaining (Num 200000) = "2 days" /\
  formatTimeRemaining (Num (-5)) = "-5 seconds" /\
  formatTimeRemaining NaN = "NaN days".
Proof. repeat split. Qed.

Lemma strip_prefix_append p s r : strip_prefix p s = Some r -> s = p +:+ r.
Proof.
  revert s. induction p as [|a p IH]; intros s H.
  - injection H as ->. reflexivity.
  - destruct s as [|b s]; [discriminate|]. simpl in H.
    destruct (Ascii.eqb_spec a b) as [->|]; [|discriminate].
    rewrite append_cons, <- (IH s H). reflexivity.
Qed.

Lemma strip_prefix_of_append p r : strip_prefix p (p +:+ r) = Some r.
Proof.
  induction p as [|a p IH]; [reflexivity|].
  rewrite append_cons. simpl. rewrite Ascii.eqb_refl. exact IH.
Qed.

Lemma split_nonempty sep s : split sep s <> [].
Proof.
  destruct s as [|c r]; simpl; [discriminate|].
  destruct (Ascii.eqb c sep); [discriminate|]. destruct (split sep r); discriminate.
Qed.

Lemma join_cons sep x y l : join sep (x :: y :: l) = x +:+ sep +:+ join sep (y :: l).
Proof. reflexivity. Qed.

(** Joining the parts of a split with the separator gives the string back. *)
Lemma join_split (sep : ascii) (s : string) : join (str1 sep) (split sep s) = s.
Proof.
  induction s as [|c r IH]; [reflexivity|]. simpl.
  pose proof (split_nonempty sep r) as Hne.
  destruct (Ascii.eqb_spec c sep) as [->|Hc].
  - destruct (split sep r) as [|y l]; [congruence|].
    rewrite join_cons, IH. reflexivity.
  - destruct (split sep r) as [|y l]; [congruence|].
    destruct l as [|z l].
    + simpl in *. rewrite IH. reflexivity.
    + rewrite join_cons in *. rewrite append_cons, IH. reflexivity.
Qed.

(** No part of a split contains the separator. *)
Lemma split_parts_free sep s : Forall (fun part => occurs sep part = false) (split sep s).
Proof.
  induction s as [|c r IH]; simpl; [repeat constructor|].
  destruct (Ascii.eqb_spec c sep) as [->|Hc].
  - constructor; [reflexivity|exact IH].
  - destruct (split sep r) as [|y l]; [repeat constructor; simpl|].
    + destruct (Ascii.eqb_spec c sep); [contradiction|reflexivity].
    + inversion IH as [|? ? Hy Hl]; subst. constructor; [|exact Hl]. simpl.
      destruct (Ascii.eqb_spec c sep); [contradiction|exact Hy].
Qed.

(** A string without the separator is its own single part; with the
    separator after a free prefix, the prefix is the first part. *)
Lemma split_free sep s : occurs sep s = false -> split sep s = [s].
Proof.
  induction s as [|c r IH]; simpl; [reflexivity|]. intros H.
  apply orb_false_iff in H as [Hc Hr]. rewrite Hc, (IH Hr). reflexivity.
Qed.

Lemma split_at_first sep a b :
  occurs sep a = false -> split sep (a +:+ String sep b) = a :: split sep b.
Proof.
  induction a as [|c r IH]; intros H.
  - rewrite append_empty. simpl. rewrite Ascii.eqb_refl. reflexivity.
  - simpl in H. apply orb_false_iff in H as [Hc Hr].
    rewrite append_cons. simpl. rewrite Hc, (IH Hr). reflexivity.
Qed.

Lemma split_single sep s : (length (split sep s) < 2)%nat <-> occurs sep s = false.
Proof.
  split.
  - induction s as [|c r IH]; simpl; [reflexivity|].
    pose proof (split_nonempty sep r) as Hne.
    destruct (Ascii.eqb c sep); simpl.
    + destruct (split sep r); [congruence|simpl; lia].
    + destruct (split sep r) as [|y l]; [congruence|]. simpl in *. exact IH.
  - intros H. rewrite (split_free _ _ H). simpl. lia.
Qed.

(** The parts [parseApiKey] returns are what follows the prefix, cut at its
    first underscore. *)
Lemma parseApiKey_parts (apiKey : string) (p : KeyParts) :
  parseApiKey apiKey = Some p ->
  exists l,
    split "_" (slice 9 apiKey) = parts_keyId p :: l /\
    apiKey = "ask_live_" +:+ parts_keyId p +:+ "_" +:+ parts_keySecret p.
Proof.
  unfold parseApiKey, startsWith.
  destruct (strip_prefix "ask_live_" apiKey) as [r|] eqn:Hp; [|discriminate].
  apply strip_prefix_append in Hp. subst apiKey. cbn [negb].
  change (slice 9 ("ask_live_" +:+ r)) with r.
  pose proof (join_split "_" r) as Hj.
  destruct (split "_" r) as [|h [|y l]]; simpl; try discriminate.
  intros [= <-]. simpl. rewrite join_cons in Hj. exists (y :: l).
  split; [reflexivity|]. rewrite <- Hj at 1. reflexivity.
Qed.

(** X1: a key that [parseApiKey] accepts is the prefix [ask_live_], the
    key identifier, an underscore and the secret, and the key identifier
    holds no underscore: the parts recompose to the key that was parsed. *)
Theorem parseApiKey_recompose (apiKey : string) (p : KeyParts) :
  parseApiKey apiKey = Some p ->
  apiKey = "ask_live_" +:+ parts_keyId p +:+ "_" +:+ parts_keySecret p /\
  occurs "_" (parts_keyId p) = false.
Proof.
  intros H. destruct (parseApiKey_parts apiKey p H) as (l & Hs & Hk).
  split; [exact Hk|].
  pose proof (split_parts_free "_" (slice 9 apiKey)) as Hf.
  rewrite Hs in Hf. inversion Hf. assumption.
Qed.

Lemma parseApiKey_recompose_witness :
  "ask_live_abc_de_f" = "ask_live_" +:+ "abc" +:+ "_" +:+ "de_f" /\ occurs "_" "abc" = false.
Proof. apply (parseApiKey_recompose "ask_live_abc_de_f" (mkKeyParts "abc" "de_f")). reflexivity. Defined.

(** X2: composing a key from a key identifier without underscore and any
    secret, and parsing it, gives the two parts back. *)
Theorem parseApiKey_composed (id secret : string) :
  occurs "_" id = false ->
  parseApiKey ("ask_live_" +:+ id +:+ "_" +:+ secret) = Some (mkKeyParts id secret).
Proof.
  intros H. unfold parseApiKey, startsWith. rewrite strip_prefix_of_append. cbn [negb].
  change (slice 9 ("ask_live_" +:+ id +:+ "_" +:+ secret)) with (id +:+ String "_" secret).
  rewrite (split_at_first _ _ _ H).
  pose proof (split_nonempty "_" secret) as Hne. pose proof (join_split "_" secret) as Hj.
  destruct (split "_" secret) as [|y l]; [congruence|].
  cbn [length hd tl Nat.ltb Nat.leb]. do 2 f_equal. exact Hj.
Qed.

Lemma parseApiKey_composed_witness :
  parseApiKey ("ask_live_" +:+ "abc123" +:+ "_" +:+ "s3_cret") = Some (mkKeyParts "abc123" "s3_cret").
Proof. apply (parseApiKey_composed "abc123" "s3_cret"). reflexivity. Defined.

(** X3: [parseApiKey] rejects exactly the strings that do not start with
    [ask_live_] or have no underscore after that prefix. *)
Theorem parseApiKey_rejects (apiKey : string) :
  parseApiKey apiKey = None <->
  startsWith apiKey "ask_live_" = false \/ occurs "_" (slice 9 apiKey) = false.
Proof.
  unfold parseApiKey. destruct (startsWith apiKey "ask_live_"); cbn [negb].
  - pose proof (split_single "_" (slice 9 apiKey)) as Hs.
    destruct (Nat.ltb_spec (length (split "_" (slice 9 apiKey))) 2) as [Hlt|Hge].
    + split; [intros _; right; apply Hs, Hlt|reflexivity].
    + split; [discriminate|]. intros [H|H]; [discriminate|]. apply Hs in H. lia.
  - split; auto.
Qed.

(** ** Time remaining *)


(** ** Expiration check: invariants *)

(** X5: [checkExpiration] never throws; it never reports a credential as
    both expired and expiring soon; and it gives a message exactly when one
    of the two flags is set. *)
Theorem checkExpiration_flags (expiresAt : option string) (w : World) :
  exists c,
    fst (checkExpiration expiresAt w) = Ok c /\
    expired c && expiringSoon c = false /\
    (message c = None <-> expired c = false /\ expiringSoon c = false).
Proof.
  unfold checkExpiration, bind, read, ret, Date_now.
  destruct (negb (truthy_opt expiresAt)); simpl.
  - eexists. split; [reflexivity|]. split; [reflexivity|]. split; auto.
  - destruct (js_le _ _); [|destruct (js_lt _ _)]; simpl;
      (eexists; split; [reflexivity|]; split; [reflexivity|]);
      simpl; (split; [intros H; try congruence; split; reflexivity
                     |intros [H1 H2]; congruence]).
Qed.

(** X6: an expiration timestamp that does not denote a date never blocks a
    request.  Its difference to the current time is NaN, which is neither
    at most 0 nor below 30 minutes: the check reports neither flag, and the
    request interceptor lets the request through with the key, whatever the
    clock says. *)
Theorem unparseable_expiration_passes (key s : string) (props : list (string * JValue))
    (config : RequestConfig) (w : World) :
  fst (getApiKey w) = Ok (Some key) ->
  fst (loadConfig w) = Ok (JObject props) ->
  well_typed (JObject props) = true ->
  lookup_prop "apiKeyExpiresAt" props = Some (JString s) ->
  Date_parse w s = NaN ->
  fst (checkExpiration (Some s) w) = Ok (mkCheck false false None) /\
  fst (request_interceptor config w) = Ok (set_header "X-API-Key" key config).
Proof.
  intros Hkey Hload Htyped Hprop Hnan. split.
  - apply checkExpiration_invalid_date, Hnan.
  - destruct (request_interceptor_usable key config w) as (w' & -> & _); [|reflexivity].
    split; [exact Hkey|]. exists props. split; [exact Hload|]. split; [exact Htyped|].
    intros n. unfold expired_at, own_string. rewrite Hprop.
    destruct s as [|c r]; [reflexivity|]. cbn [truthy_opt truthy js_or andb].
    rewrite Hnan. reflexivity.
Qed.

Lemma unparseable_expiration_passes_witness :
  let key := "ask_live_abc123_s3cret" in
  let w := example_world {[ "ASSAY_API_KEY" := key ]}
             (config_file (example_config None (Some "next week"))) None
             (fun _ => ok_reply) in
  fst (checkExpiration (Some "next week") w) = Ok (mkCheck false false None) /\
  fst (request_interceptor (get_request "/api/v1/me" []) w)
  = Ok (set_header "X-API-Key" key (get_request "/api/v1/me" [])).
Proof.
  intros key w.
  apply (unparseable_expiration_passes key "next week"
           [("apiKeyExpiresAt", JString "next week");
            ("baseUrl", JString "https://us-east4-pdfsummaries.cloudfunctions.net/api");
            ("outputFormat", JString "json")]).
  - reflexivity.
  - vm_compute. reflexivity.
  - reflexivity.
  - reflexivity.
  - reflexivity.
Defined.

(** ** The secret store adapter *)

(** After the probe the module variable holds the answer. *)
Lemma isKeychainAvailable_sets_cache w :
  keytarAvailable (snd (isKeychainAvailable w)) = Some (available w).
Proof.
  unfold isKeychainAvailable, available, keytar_getPassword. run.
  destruct (keytarAvailable w) eqn:E; simpl; [exact E|].
  destruct (keytar w); reflexivity.
Qed.

(** X7: the probe of the vault runs at most once: after a call of
    [isKeychainAvailable] the answer is cached, and a second call returns
    the same answer without touching the world (no vault access, no
    event). *)
Theorem isKeychainAvailable_cached (w : World) :
  let first := isKeychainAvailable w in
  exists b,
    fst first = Ok b /\
    keytarAvailable (snd first) = Some b /\
    isKeychainAvailable (snd first) = (Ok b, snd first).
Proof.
  unfold isKeychainAvailable, keytar_getPassword. run.
  destruct (keytarAvailable w) eqn:E; simpl.
  - exists b. rewrite E. auto.
  - destruct (keytar w); simpl; eexists; repeat split.
Qed.

(** X8: retrieving and deleting the secret never throw: every failure of
    the vault is swallowed, and an unavailable vault reads as no secret. *)
Theorem secret_store_failures_swallowed (w : World) :
  (exists secret, fst (getApiKeySecret w) = Ok secret) /\
  fst (deleteApiKeySecret w) = Ok tt /\
  (available w = false -> fst (getApiKeySecret w) = Ok None).
Proof.
  unfold getApiKeySecret, deleteApiKeySecret, bind.
  pose proof (isKeychainAvailable_result w) as Hr.
  destruct (isKeychainAvailable w) as [r w1]. simpl in Hr. subst r.
  destruct (available w); simpl.
  - split; [|split; [|discriminate]].
    + unfold try_catch. destruct (keytar_getPassword _ _ w1) as [[s|e] w2]; simpl; eauto.
    + unfold try_catch, bind.
      destruct (keytar_deletePassword _ _ w1) as [[s|e] w2]; reflexivity.
  - split; [eauto|]. split; reflexivity.
Qed.

Lemma secret_store_failures_swallowed_witness :
  fst (getApiKeySecret (example_world ∅ ∅ None (fun _ => ok_reply))) = Ok None.
Proof.
  apply (secret_store_failures_swallowed (example_world ∅ ∅ None (fun _ => ok_reply))).
  reflexivity.
Defined.

Lemma storeApiKeySecret_stored w vault secret :
  available w = true ->
  keytar w = Some vault ->
  secret <> "" ->
  exists w',
    storeApiKeySecret secret w = (Ok tt, w') /\
    keytar w' = Some (<[(SERVICE_NAME, KEY_NAME) := secret]> vault) /\
    keytarAvailable w' = Some true.
Proof.
  intros Ha Hk Hs. unfold storeApiKeySecret, bind.
  pose proof (isKeychainAvailable_result w) as Hr.
  pose proof (isKeychainAvailable_host w) as Hh.
  pose proof (isKeychainAvailable_sets_cache w) as Hc.
  destruct (isKeychainAvailable w) as [r w1]. simpl in Hr, Hh, Hc. subst r.
  rewrite Ha in *. cbn [negb].
  host_eqs Hh. unfold keytar_setPassword, try_catch, bind, emit, read.
  rewrite (truthy_nonempty _ Hs). simpl. rewrite Hk0, Hk. simpl.
  eexists. split; [reflexivity|]. split; [reflexivity|exact Hc].
Qed.

(** X9: with a working vault, a non-empty secret that is stored is the
    secret retrieved afterwards. *)
Theorem store_then_retrieve (w : World) (vault : gmap (string * string) string)
    (secret : string) :
  available w = true ->
  keytar w = Some vault ->
  secret <> "" ->
  fst (storeApiKeySecret secret w) = Ok tt /\
  fst (getApiKeySecret (snd (storeApiKeySecret secret w))) = Ok (Some secret).
Proof.
  intros Ha Hk Hs.
  destruct (storeApiKeySecret_stored w vault secret Ha Hk Hs) as (w' & -> & Hk' & Hc').
  split; [reflexivity|]. simpl.
  apply (getApiKeySecret_found _ (<[(SERVICE_NAME, KEY_NAME) := secret]> vault)).
  - unfold available. rewrite Hc'. reflexivity.
  - exact Hk'.
  - apply lookup_insert_eq.
Qed.

Lemma store_then_retrieve_witness :
  let w := example_world ∅ ∅ (Some ∅) (fun _ => ok_reply) in
  fst (storeApiKeySecret "s3cret" w) = Ok tt /\
  fst (getApiKeySecret (snd (storeApiKeySecret "s3cret" w))) = Ok (Some "s3cret").
Proof.
  intros w. apply (store_then_retrieve w ∅ "s3cret"); [reflexivity|reflexivity|discriminate].
Defined.

(** X10: when the vault is unavailable, or the secret is empty, storing
    fails with an error and the vault is left as it was. *)
Theorem store_refused (w : World) (secret : string) :
  available w = false \/ secret = "" ->
  (exists msg, fst (storeApiKeySecret secret w) = Throw (JsError msg)) /\
  keytar (snd (storeApiKeySecret secret w)) = keytar w.
Proof.
  intros H. unfold storeApiKeySecret, bind.
  pose proof (isKeychainAvailable_result w) as Hr.
  pose proof (isKeychainAvailable_host w) as Hh.
  destruct (isKeychainAvailable w) as [r w1]. simpl in Hr, Hh. subst r.
  host_eqs Hh. destruct (available w) eqn:Hav; cbn [negb].
  - destruct H as [H|H]; [discriminate|]. subst secret.
    unfold keytar_setPassword, try_catch, throw. simpl. split; [eauto|assumption].
  - unfold throw. simpl. split; [eauto|assumption].
Qed.

Lemma store_refused_witness :
  let w := example_world ∅ ∅ None (fun _ => ok_reply) in
  (exists msg, fst (storeApiKeySecret "s3cret" w) = Throw (JsError msg)) /\
  keytar (snd (storeApiKeySecret "s3cret" w)) = keytar w.
Proof.
  intros w. apply (store_refused w "s3cret"). left. reflexivity.
Defined.

Lemma deleteApiKeySecret_deleted w vault :
  available w = true ->
  keytar w = Some vault ->
  exists w',
    deleteApiKeySecret w = (Ok tt, w') /\
    keytar w' = Some (delete (SERVICE_NAME, KEY_NAME) vault) /\
    keytarAvailable w' = Some true.
Proof.
  intros Ha Hk. unfold deleteApiKeySecret, bind.
  pose proof (isKeychainAvailable_result w) as Hr.
  pose proof (isKeychainAvailable_host w) as Hh.
  pose proof (isKeychainAvailable_sets_cache w) as Hc.
  destruct (isKeychainAvailable w) as [r w1]. simpl in Hr, Hh, Hc. subst r.
  rewrite Ha in *. cbn [negb].
  host_eqs Hh. unfold keytar_deletePassword, try_catch, bind, emit, read, ret.
  simpl. rewrite Hk0, Hk. simpl.
  eexists. split; [reflexivity|]. split; [reflexivity|exact Hc].
Qed.

(** X11: with a working vault, after [deleteApiKeySecret] no secret is
    retrieved. *)
Theorem delete_then_retrieve (w : World) (vault : gmap (string * string) string) :
  available w = true ->
  keytar w = Some vault ->
  fst (getApiKeySecret (snd (deleteApiKeySecret w))) = Ok None.
Proof.
  intros Ha Hk.
  destruct (deleteApiKeySecret_deleted w vault Ha Hk) as (w' & -> & Hk' & Hc'). simpl.
  unfold getApiKeySecret, isKeychainAvailable, keytar_getPassword, bind, read, ret,
    try_catch, emit. simpl. rewrite Hc'. simpl. rewrite Hk'. simpl.
  unfold getKeychainServiceName, getKeychainKeyName. rewrite lookup_delete_eq. reflexivity.
Qed.

Lemma delete_then_retrieve_witness :
  fst (getApiKeySecret
         (snd (deleteApiKeySecret
                 (example_world ∅ ∅ (Some (vault_with "s3cret")) (fun _ => ok_reply)))))
  = Ok None.
Proof.
  apply (delete_then_retrieve _ (vault_with "s3cret")); reflexivity.
Defined.

(** ** The config store: failures and writes *)

(** X12: when the config path holds a file that is not valid JSON, or a
    directory, [loadConfig] throws an error whose message starts with
    [Failed to load config: ]. *)
Theorem loadConfig_unreadable (w : World) (node : Node) :
  fs w !! getConfigPath w = Some node ->
  match node with
  | File content => JSON_parse content = None
  | Dir => True
  end ->
  exists reason, fst (loadConfig w) = Throw (JsError ("Failed to load config: " +:+ reason)).
Proof.
  intros Hn Hbad. unfold loadConfig, existsSync, readFileSync. run. rewrite Hn. simpl.
  rewrite Hn. destruct node as [content|]; simpl; [rewrite Hbad|]; simpl; eauto.
Qed.

Lemma loadConfig_unreadable_witness :
  exists reason,
    fst (loadConfig (example_world ∅ {[ example_path := File "{ keyId: abc" ]} None
                       (fun _ => ok_reply)))
    = Throw (JsError ("Failed to load config: " +:+ reason)).
Proof.
  apply (loadConfig_unreadable _ (File "{ keyId: abc")); reflexivity.
Defined.

(** X13: a config file that cannot be loaded blocks every request, also
    when the key comes from [ASSAY_API_KEY]: the request interceptor loads
    the config for the expiration check, the call fails with the load
    error, and nothing is sent. *)
Theorem unreadable_config_blocks_requests (url : string) (params : list (string * string))
    (w : World) (key reason : string) :
  env w !! "ASSAY_API_KEY" = Some key ->
  key <> "" ->
  fst (loadConfig w) = Throw (JsError reason) ->
  exists w' evs,
    client_get url params w = Some (Throw (JsError reason), w') /\
    trace w' = evs ++ trace w /\ forallb not_http evs = true.
Proof.
  intros Henv Hkey Hload.
  assert (Hres : fst (request_interceptor (get_request url params) w)
                 = Throw (JsError reason)).
  { unfold request_interceptor, getApiKey, bind, read, ret.
    rewrite Henv. cbn [truthy_opt]. rewrite (truthy_nonempty _ Hkey). simpl.
    rewrite (truthy_nonempty _ Hkey). simpl.
    destruct (loadConfig w) as [r w1]. simpl in Hload. subst r. reflexivity. }
  destruct (emits_request_interceptor (get_request url params) w) as (evs & Htr & Hp).
  unfold client_get. rewrite (client_request_refused _ _ _ _ Hres). eauto.
Qed.

Lemma unreadable_config_blocks_requests_witness :
  let w := example_world {[ "ASSAY_API_KEY" := "ask_live_abc123_s3cret" ]}
             {[ example_path := File "{ keyId: abc" ]} None (fun _ => ok_reply) in
  exists w' evs,
    client_get "/api/v1/themes" [] w
    = Some (Throw (JsError "Failed to load config: Unexpected token in JSON"), w') /\
    trace w' = evs ++ trace w /\ forallb not_http evs = true.
Proof.
  intros w.
  apply (unreadable_config_blocks_requests "/api/v1/themes" [] w "ask_live_abc123_s3cret");
    [reflexivity|discriminate|reflexivity].
Defined.




(** ** The request pipeline as a whole *)

Lemma preserves_host_emit e : preserves host (emit e).
Proof. intros w. reflexivity. Qed.

Lemma preserves_stable {A} (m : M A) : stable m -> preserves host m.
Proof. intros [H _]. exact H. Qed.

Ltac host_step :=
  first
    [ apply preserves_ret
    | apply preserves_throw
    | apply preserves_read
    | apply preserves_host_emit
    | apply host_checkExpiration
    | apply host_waitMs
    | apply preserves_stable, stable_loadConfig
    | apply preserves_stable, stable_getApiKey
    | apply preserves_stable, stable_get_field
    | apply preserves_bind; [|intros ?]
    | apply preserves_try_catch; [|intros ?]
    | match goal with
      | |- preserves _ (if ?b then _ else _) => destruct b
      | |- preserves _ (match ?x with _ => _ end) => destruct x
      end ].

Lemma host_request_interceptor config : preserves host (request_interceptor config).
Proof. unfold request_interceptor, console_warn. repeat host_step. Qed.

Lemma host_dispatchRequest config : preserves host (dispatchRequest config).
Proof. unfold dispatchRequest. repeat host_step. Qed.

Lemma host_response_fulfilled r : preserves host (response_fulfilled r).
Proof. unfold response_fulfilled, set_field. repeat host_step. Qed.

Lemma host_response_rejected e : preserves host (response_rejected e).
Proof. unfold response_rejected, console_warn, sleep. repeat host_step. Qed.

Lemma host_attempt config : preserves host (attempt config).
Proof.
  intros w. unfold attempt.
  assert (H1 : preserves host (config' <- request_interceptor config ;; dispatchRequest config'))
    by (apply preserves_bind; [apply host_request_interceptor|intros c; apply host_dispatchRequest]).
  specialize (H1 w).
  destruct ((config' <- request_interceptor config ;; dispatchRequest config') w)
    as [[r|e] w1]; simpl in H1; rewrite <- H1.
  - apply (preserves_bind host); [apply host_response_fulfilled|intros a; apply preserves_ret].
  - apply (preserves_bind host); [apply host_response_rejected|intros a; apply preserves_ret].
Qed.

(** [client.request] leaves the host as it found it. *)
Lemma client_request_host fuel :
  forall config w r w', client_request fuel config w = Some (r, w') -> host w' = host w.
Proof.
  induction fuel as [|fuel IH]; intros config w r w' H; [discriminate|].
  rewrite client_request_eq in H. pose proof (host_attempt config w) as Hh.
  destruct (attempt config w) as [[[resp|c]|e] w1]; simpl in Hh.
  - injection H as <- <-. exact Hh.
  - rewrite (IH _ _ _ _ H). exact Hh.
  - injection H as <- <-. exact Hh.
Qed.









(** X17: a request changes nothing on the machine: the environment, the
    file system and the vault are after [client.get] what they were before,
    whatever the responses carry.  In particular the expiration a response
    announces in [x-api-key-expires-at] is not saved: the config loads
    afterwards as it did before. *)
Theorem client_get_changes_nothing (url : string) (params : list (string * string))
    (w : World) :
  exists r w',
    client_get url params w = Some (r, w') /\
    env w' = env w /\ fs w' = fs w /\ keytar w' = keytar w /\
    fst (loadConfig w') = fst (loadConfig w).
Proof.
  destruct (client_request_settles 4 (get_request url params) w) as (r & w' & H);
    [lia|vm_compute; discriminate|].
  exists r, w'. split; [exact H|].
  pose proof (client_request_host 4 _ _ _ _ H) as Hh.
  destruct stable_loadConfig as [_ Hl]. rewrite (Hl w' w Hh).
  host_eqs Hh. repeat split; assumption.
Qed.



(** ** Verification of a key *)

(** [testApiKey] never throws and sends exactly one request. *)
Lemma testApiKey_world apiKey w :
  exists r,
    testApiKey apiKey w
    = (Ok r, set_trace (HttpSend (axios_get_request ME_URL {[ "X-API-Key" := apiKey ]} 10000)
                          :: trace w) w).
Proof.
  unfold testApiKey, try_catch, bind. rewrite dispatchRequest_eq.
  destruct (server w (http_count (trace w))) as [resp|c]; [|eauto].
  destruct ((200 <=? status resp) && (status resp <? 300)); [|eauto].
  unfold get_prop. destruct (response_data resp) as [|b|n|s|items|props]; simpl; eauto.
  destruct (js_truthy (lookup_prop "success" props)); simpl; eauto.
  destruct (lookup_prop "data" props) as [[|b|n|s|items|d]|]; simpl; eauto;
    match goal with |- context [if ?c then _ else _] => destruct c; simpl; eauto end.
Qed.


(** ** The login command *)

Lemma cmd_bind_show {B} o (k : unit -> Cmd B) p :
  cmd_bind (show o) k p = k tt (set_terminal (o :: terminal p) p).
Proof. reflexivity. Qed.

Lemma cmd_bind_ret {A B} (a : A) (k : A -> Cmd B) p : cmd_bind (cmd_ret a) k p = k a p.
Proof. reflexivity. Qed.

Lemma cmd_bind_lift {A B} (m : M A) (k : A -> Cmd B) p :
  cmd_bind (lift m) k p
  = match m (world p) with
    | (Ok a, w') => k a (set_world w' p)
    | (Throw e, w') => (Threw e, set_world w' p)
    end.
Proof. unfold cmd_bind, lift. destruct (m (world p)) as [[a|e] w']; reflexivity. Qed.

Lemma cmd_bind_open {B} target (k : unit -> Cmd B) p :
  cmd_bind (open target) k p
  = match open_fails p with
    | None => k tt (set_terminal (Open target :: terminal p) p)
    | Some msg => (Threw (JsError msg), set_terminal (Open target :: terminal p) p)
    end.
Proof. unfold cmd_bind, open. destruct (open_fails p); reflexivity. Qed.

Lemma cmd_bind_prompt {B} message validate (k : string -> Cmd B) p :
  cmd_bind (prompt_input message validate) k p
  = match first_valid validate (typed p) with
    | Some (answer, rest) =>
        k answer (set_typed rest (set_terminal (Prompt message :: terminal p) p))
    | None => (Pending, set_typed [] (set_terminal (Prompt message :: terminal p) p))
    end.
Proof.
  unfold cmd_bind, prompt_input.
  destruct (first_valid validate (typed p)) as [[answer rest]|]; reflexivity.
Qed.

Lemma cmd_bind_exit {A B} exitCode (k : A -> Cmd B) p :
  cmd_bind (process_exit exitCode) k p = (Exited exitCode, p).
Proof. reflexivity. Qed.

Lemma cmd_bind_assoc {A B C} (m : Cmd A) (f : A -> Cmd B) (g : B -> Cmd C) p :
  cmd_bind (cmd_bind m f) g p = cmd_bind m (fun a => cmd_bind (f a) g) p.
Proof. unfold cmd_bind. destruct (m p) as [[a|e|c|] p']; reflexivity. Qed.

Lemma settles_ret {A} (a : A) : settles (cmd_ret a).
Proof. intros p. exact I. Qed.

Lemma settles_show o : settles (show o).
Proof. intros p. exact I. Qed.

Lemma settles_lift {A} (m : M A) : settles (lift m).
Proof. intros p. unfold lift. destruct (m (world p)) as [[a|e] w']; exact I. Qed.

Lemma settles_Date_toLocaleString v : settles (Date_toLocaleString v).
Proof. intros p. exact I. Qed.

Lemma settles_bind {A B} (m : Cmd A) (k : A -> Cmd B) :
  settles m -> (forall a, settles (k a)) -> settles (cmd_bind m k).
Proof.
  intros Hm Hk p. unfold cmd_bind. specialize (Hm p).
  destruct (m p) as [[a|e|c|] p']; simpl in *; try contradiction; [apply Hk|exact I].
Qed.

Lemma announces_bind {A B} (m : Cmd A) (k : A -> Cmd B) :
  settles m -> (forall a, announces (k a)) -> announces (cmd_bind m k).
Proof.
  intros Hm Hk p. unfold cmd_bind. specialize (Hm p).
  destruct (m p) as [[a|e|c|] p']; simpl in *; try contradiction; [apply Hk|exact I].
Qed.

Lemma announces_printSuccess text : announces (printSuccess ("API key valid until " +:+ text)).
Proof. intros p. simpl. eauto. Qed.

Ltac settles_step :=
  first
    [ apply settles_ret
    | apply settles_show
    | apply settles_lift
    | apply settles_Date_toLocaleString
    | apply settles_bind; [|intros ?]
    | match goal with
      | |- settles (if ?b then _ else _) => destruct b
      | |- settles (match ?x with _ => _ end) => destruct x
      end ].

Ltac proj :=
  cbn [world terminal typed open_fails toLocaleString set_world set_terminal set_typed].

(** X20: the login command never rejects.  It returns after the success
    message; or it ends the process with exit code 1 right after an error
    message on the error stream, which is what every failure comes to; or
    it waits for an answer that passes the check of the prompt, when none
    is submitted. *)
Theorem login_action_ends (p : Process) :
  match fst (login_action p) with
  | Returned _ =>
      exists text rest,
        terminal (snd (login_action p))
        = ConsoleLog ("✅ API key valid until " +:+ text) :: rest
  | Threw _ => False
  | Exited exitCode =>
      exitCode = 1 /\
      exists msg rest, terminal (snd (login_action p)) = ConsoleError ("❌ " +:+ msg) :: rest
  | Pending => first_valid validate_key (typed p) = None
  end.
Proof.
  unfold login_action, cmd_try_catch, printInfo, printError, chalk_red, chalk_blue.
  rewrite cmd_bind_show, cmd_bind_open. proj.
  destruct (open_fails p) as [msg|]; [simpl; eauto|].
  rewrite cmd_bind_prompt. proj.
  destruct (first_valid validate_key (typed p)) as [[apiKey rest]|] eqn:Hv; [|reflexivity].
  proj.
  destruct (parseApiKey apiKey) as [parsed|].
  2:{ rewrite cmd_bind_assoc, cmd_bind_show, cmd_bind_exit. simpl. eauto. }
  rewrite cmd_bind_ret, cmd_bind_show, cmd_bind_lift.
  match goal with
  | |- context [testApiKey ?k ?w] => destruct (testApiKey_world k w) as (r & ->)
  end.
  destruct (valid r); cbn [negb].
  2:{ rewrite cmd_bind_assoc, cmd_bind_show, cmd_bind_exit. simpl. eauto. }
  rewrite cmd_bind_ret.
  match goal with
  | |- context [cmd_bind (lift isKeychainAvailable) ?k ?q] =>
      assert (Hk : announces (cmd_bind (lift isKeychainAvailable) k));
      [|specialize (Hk q); destruct (cmd_bind (lift isKeychainAvailable) k q) as [[a|e|c|] q']]
  end.
  - apply announces_bind; [apply settles_lift|intros available].
    apply announces_bind; [repeat settles_step|intros _].
    apply announces_bind; [apply settles_lift|intros config].
    apply announces_bind; [apply settles_lift|intros config1].
    apply announces_bind; [apply settles_lift|intros config2].
    apply announces_bind; [apply settles_lift|intros config3].
    apply announces_bind; [apply settles_lift|intros _].
    apply announces_bind; [unfold printWarning; repeat settles_step|intros _].
    apply announces_bind; [repeat settles_step|intros text].
    apply announces_printSuccess.
  - exact Hk.
  - simpl. eauto.
  - contradiction.
  - contradiction.
Qed.

Lemma first_valid_valid validate inputs answer rest :
  first_valid validate inputs = Some (answer, rest) -> validate answer = true.
Proof.
  induction inputs as [|x l IH]; simpl; [discriminate|].
  destruct (validate x) eqn:E; [intros [= <- <-]; exact E|exact IH].
Qed.

(** X21: a key without underscore after its prefix passes the check of the
    prompt and is refused right after: the command prints the error and
    exits with code 1, and the world is untouched (no request is sent,
    nothing is stored). *)
Theorem login_malformed_key (p : Process) (apiKey : string) (rest : list string) :
  open_fails p = None ->
  first_valid validate_key (typed p) = Some (apiKey, rest) ->
  occurs "_" (slice 9 apiKey) = false ->
  fst (login_action p) = Exited 1 /\
  world (snd (login_action p)) = world p /\
  exists shown,
    terminal (snd (login_action p)) = ConsoleError "❌ Invalid API key format" :: shown.
Proof.
  intros Hopen Hv Hno.
  assert (Hparse : parseApiKey apiKey = None).
  { unfold parseApiKey. apply first_valid_valid in Hv. unfold validate_key in Hv.
    rewrite Hv. cbn [negb].
    destruct (Nat.ltb_spec (length (split "_" (slice 9 apiKey))) 2) as [_|Hge]; [reflexivity|].
    apply split_single in Hno. lia. }
  unfold login_action, cmd_try_catch, printInfo, printError, chalk_red, chalk_blue.
  rewrite cmd_bind_show, cmd_bind_open. proj. rewrite Hopen.
  rewrite cmd_bind_prompt. proj. rewrite Hv, Hparse.
  rewrite cmd_bind_assoc, cmd_bind_show, cmd_bind_exit. proj.
  split; [reflexivity|]. split; [reflexivity|]. eexists. reflexivity.
Qed.

Lemma login_malformed_key_witness :
  let p := example_process (example_world ∅ ∅ (Some ∅) (fun _ => ok_reply))
             ["abc123_s3cret"; "ask_live_abc123"] in
  fst (login_action p) = Exited 1 /\
  world (snd (login_action p)) = world p /\
  exists shown,
    terminal (snd (login_action p)) = ConsoleError "❌ Invalid API key format" :: shown.
Proof.
  intros p. apply (login_malformed_key p "ask_live_abc123" []); reflexivity.
Defined.




Lemma cmd_bind_assign {B} props name value (k : JValue -> Cmd B) p :
  cmd_bind (lift (assign (JObject props) name value)) k p
  = k (JObject (match value with
                | Some v => define_prop name v props
                | None => remove_prop name props
                end)) (set_world (world p) p).
Proof. reflexivity. Qed.

Lemma cmd_bind_toLocaleString {B} v (k : string -> Cmd B) p :
  cmd_bind (Date_toLocaleString v) k p = k (toLocaleString p v) p.
Proof. reflexivity. Qed.

(** ** Login, end to end *)

Lemma isKeychainAvailable_world w :
  exists t,
    isKeychainAvailable w
    = (Ok (available w), set_keytarAvailable (Some (available w)) (set_trace t w)).
Proof.
  unfold isKeychainAvailable, available, keytar_getPassword. run.
  destruct w as [e pl h f k a c n d s t]. simpl.
  destruct a as [b|]; [exists t; reflexivity|].
  destruct k; simpl; eexists; reflexivity.
Qed.

Lemma storeApiKeySecret_world w vault secret :
  available w = true ->
  keytar w = Some vault ->
  secret <> "" ->
  exists t,
    storeApiKeySecret secret w
    = (Ok tt, set_keytar (Some (<[(SERVICE_NAME, KEY_NAME) := secret]> vault))
                (set_keytarAvailable (Some true) (set_trace t w))).
Proof.
  intros Ha Hk Hs. unfold storeApiKeySecret, bind.
  destruct (isKeychainAvailable_world w) as (t & ->). rewrite Ha. cbn [negb].
  unfold keytar_setPassword, try_catch, bind, emit, read. rewrite (truthy_nonempty _ Hs).
  simpl. rewrite Hk. simpl. exists (KeytarSet getKeychainServiceName getKeychainKeyName secret :: t).
  reflexivity.
Qed.

Lemma getConfigPath_ne_dir w : getConfigPath w <> getConfigDir w.
Proof.
  unfold getConfigPath, path_join. destruct (truthy (getConfigDir w)) eqn:E.
  - intros H. apply (f_equal String.length) in H. rewrite !length_append in H.
    destruct (String.eqb _ _); simpl in H; lia.
  - destruct (getConfigDir w); [discriminate|discriminate E].
Qed.

Lemma getConfigPath_machine w w' :
  env w = env w' -> platform w = platform w' -> homedir w = homedir w' ->
  getConfigDir w = getConfigDir w' /\ getConfigPath w = getConfigPath w'.
Proof.
  intros He Hp Hh. unfold getConfigPath, getConfigDir, path_join, getenv.
  rewrite He, Hp, Hh. split; reflexivity.
Qed.

(** What [loadConfig] returns depends on the environment, the platform,
    the home directory and the file system only. *)
Lemma loadConfig_machine w w' :
  env w = env w' -> platform w = platform w' -> homedir w = homedir w' -> fs w = fs w' ->
  fst (loadConfig w) = fst (loadConfig w').
Proof.
  intros He Hp Hh Hf. destruct (getConfigPath_machine w w' He Hp Hh) as [_ Hpath].
  unfold loadConfig, existsSync, readFileSync. run. rewrite Hpath, Hf.
  destruct (bool_decide _); simpl; [|reflexivity].
  rewrite Hf.
  destruct (fs w' !! getConfigPath w') as [[c|]|]; simpl; try reflexivity.
  destruct (JSON_parse c); reflexivity.
Qed.

Lemma loadConfig_ok_node w v :
  fst (loadConfig w) = Ok v -> fs w !! getConfigPath w <> Some Dir.
Proof.
  unfold loadConfig, existsSync, readFileSync. run. intros H Hd. rewrite Hd in H.
  simpl in H. rewrite Hd in H. discriminate.
Qed.

(** [saveConfig] succeeds unless the config directory is a file or the
    config path a directory. *)
Lemma saveConfig_world v w :
  (forall content, fs w !! getConfigDir w <> Some (File content)) ->
  fs w !! getConfigPath w <> Some Dir ->
  exists t,
    saveConfig v w
    = (Ok tt,
       set_fs (<[getConfigPath w := File (JSON_stringify v)]>
                 (if bool_decide (is_Some (fs w !! getConfigDir w)) then fs w
                  else <[getConfigDir w := Dir]> (fs w)))
         (set_trace t w)).
Proof.
  intros Hdir Hpath. pose proof (getConfigPath_ne_dir w) as Hne.
  unfold saveConfig, existsSync, mkdirSync, writeFileSync, chmodSync. run.
  destruct (bool_decide (is_Some (fs w !! getConfigDir w))) eqn:Hpres; simpl.
  - destruct (fs w !! getConfigPath w) as [[c|]|] eqn:Hp; simpl; [|congruence|];
      destruct (String.eqb (platform w) "win32"); simpl; rewrite ?lookup_insert_eq; simpl;
      eexists; destruct w; reflexivity.
  - destruct (fs w !! getConfigDir w) as [[c|]|] eqn:Hd; simpl.
    + exfalso. eapply Hdir. reflexivity.
    + apply bool_decide_eq_false in Hpres. exfalso. apply Hpres. eauto.
    + rewrite lookup_insert_ne by congruence.
      destruct (fs w !! getConfigPath w) as [[c|]|] eqn:Hp; simpl; [|congruence|];
        destruct (String.eqb (platform w) "win32"); simpl; rewrite ?lookup_insert_eq; simpl;
        eexists; destruct w; reflexivity.
Qed.



Lemma getApiKey_with_vault w props vault id secret :
  env w !! "ASSAY_API_KEY" = None ->
  fst (loadConfig w) = Ok (JObject props) ->
  lookup_prop "keyId" props = Some (JString id) ->
  available w = true ->
  keytar w = Some vault ->
  vault !! (SERVICE_NAME, KEY_NAME) = Some secret ->
  id <> "" ->
  secret <> "" ->
  fst (getApiKey w) = Ok (Some ("ask_live_" +:+ id +:+ "_" +:+ secret)).
Proof.
  intros Henv Hload Hid Hav Hvault Hsecret Hne1 Hne2.
  rewrite getApiKey_from_config by (rewrite Henv; reflexivity).
  unfold bind. destruct (loadConfig_world w) as (t & Hw).
  destruct (loadConfig w) as [r w1]. simpl in *. subst r w1.
  unfold get_field, own_string, ret. simpl. rewrite Hid. simpl.
  rewrite (truthy_nonempty id Hne1). simpl.
  pose proof (getApiKeySecret_found (set_trace t w) vault secret Hav Hvault Hsecret) as Hs.
  destruct (getApiKeySecret (set_trace t w)) as [r w2]. simpl in *. subst r.
  simpl. rewrite (truthy_nonempty secret Hne2). reflexivity.
Qed.



(** X24: login with a working vault makes the pasted key the credential
    of the requests that follow.  When the key is well formed with a
    non-empty identifier and secret, the verification accepts it (with an
    expiration that is a string, or none), the config loads as a [Config]
    and can be written, the command returns, and afterwards, with
    [ASSAY_API_KEY] unset, [getApiKey] resolves to the key that was
    pasted. *)
Theorem login_then_getApiKey (p : Process) (apiKey : string) (rest : list string)
    (parsed : KeyParts) (r : TestResult) (c : Config)
    (vault : gmap (string * string) string) :
  open_fails p = None ->
  first_valid validate_key (typed p) = Some (apiKey, rest) ->
  parseApiKey apiKey = Some parsed ->
  parts_keyId parsed <> "" ->
  parts_keySecret parsed <> "" ->
  fst (testApiKey apiKey (world p)) = Ok r ->
  valid r = true ->
  (expiresAt r = None \/ exists s, expiresAt r = Some (JString s)) ->
  available (world p) = true ->
  keytar (world p) = Some vault ->
  fst (loadConfig (world p)) = Ok (Config_object c) ->
  (forall content, fs (world p) !! getConfigDir (world p) <> Some (File content)) ->
  env (world p) !! "ASSAY_API_KEY" = None ->
  exists p',
    login_action p = (Returned tt, p') /\
    fst (getApiKey (world p')) = Ok (Some apiKey).
Proof.
  intros Hopen Hv Hparse Hid Hsecret Htest Hvalid Hexp Hav Hvault Hload Hdir Henv.
  pose proof (loadConfig_ok_node _ _ Hload) as Hnode.
  destruct (parseApiKey_parts apiKey parsed Hparse) as (_ & _ & Hkey).
  unfold login_action, cmd_try_catch, printInfo, printError, printWarning, printSuccess,
    chalk_red, chalk_blue, chalk_yellow, chalk_green.
  rewrite cmd_bind_show, cmd_bind_open. proj. rewrite Hopen.
  rewrite cmd_bind_prompt. proj. rewrite Hv, Hparse.
  rewrite cmd_bind_ret, cmd_bind_show, cmd_bind_lift. proj.
  destruct (testApiKey_world apiKey (world p)) as (r' & Hr).
  rewrite Hr in Htest. injection Htest as ->. rewrite Hr, Hvalid. cbn [negb].
  rewrite cmd_bind_ret, cmd_bind_lift. proj.
  match goal with
  | |- context [isKeychainAvailable ?w] =>
      destruct (isKeychainAvailable_world w) as (t2 & ->);
      change (available w) with (available (world p))
  end.
  rewrite Hav.
  rewrite cmd_bind_assoc, cmd_bind_lift. proj.
  match goal with
  | |- context [storeApiKeySecret ?s ?w] =>
      destruct (storeApiKeySecret_world w vault s) as (t3 & ->);
      [reflexivity|exact Hvault|exact Hsecret|]
  end.
  rewrite cmd_bind_show, cmd_bind_lift. proj.
  match goal with
  | |- context [loadConfig ?w] =>
      destruct (loadConfig_world w) as (t4 & Hw4);
      pose proof (loadConfig_machine w (world p) eq_refl eq_refl eq_refl eq_refl) as Hl4;
      destruct (loadConfig w) as [c4 w4]; simpl in Hw4, Hl4; subst w4;
      rewrite Hl4, Hload
  end.
  unfold Config_object at 1.
  rewrite !cmd_bind_assign, cmd_bind_lift. proj.
  match goal with
  | |- context [saveConfig ?v ?w] =>
      destruct (getConfigPath_machine w (world p) eq_refl eq_refl eq_refl) as [Hd5 Hp5];
      destruct (saveConfig_world v w) as (t5 & Hs5);
      [rewrite Hd5; exact Hdir|rewrite Hp5; exact Hnode|];
      rewrite Hs5, Hd5, Hp5
  end.
  cbn [fs set_trace set_keytarAvailable set_keytar negb]. rewrite cmd_bind_ret.
  assert (Hend : forall q : Process, exists q',
             (until <- match expiresAt r with
                       | Some v => if js_truthy (Some v) then Date_toLocaleString v
                                   else cmd_ret "unknown"
                       | None => cmd_ret "unknown"
                       end ;;
              show (ConsoleLog ("✅ " +:+ "API key valid until " +:+ until)))%cmd q
             = (Returned tt, q') /\ world q' = world q).
  { intros q. destruct (expiresAt r) as [v|]; [destruct (js_truthy (Some v))|];
      eexists; split; reflexivity. }
  match goal with
  | |- context [cmd_bind ?m ?k ?q] => destruct (Hend q) as (q' & -> & Hq')
  end.
  exists q'. split; [reflexivity|]. rewrite Hq'. proj. clear Hend Hq' q'.
  match goal with
  | |- fst (getApiKey ?w) = _ => set (W := w)
  end.
  destruct (getConfigPath_machine W (world p) eq_refl eq_refl eq_refl) as [_ HpW].
  rewrite Hkey at 1.
  match goal with
  | _ := context [JSON_stringify (JObject ?l)] |- _ => set (props := l) in *
  end.
  apply (getApiKey_with_vault W (define_all (strings_of props) [])
           (<[(SERVICE_NAME, KEY_NAME) := parts_keySecret parsed]> vault)).
  - exact Henv.
  - apply loadConfig_file with (content := JSON_stringify (JObject props)).
    + rewrite HpW. subst W. cbn [fs set_fs set_trace]. apply lookup_insert_eq.
    + subst props. destruct Hexp as [->|[s ->]];
        destruct (keyId c), (apiKeyExpiresAt c); cbn -[JSON_parse JSON_stringify];
        match goal with
        | |- JSON_parse (JSON_stringify (JObject ?l)) = _ =>
            change (JObject l) with (string_object (strings_of l))
        end;
        apply JSON_parse_string_object; discriminate.
  - subst props. destruct Hexp as [->|[s ->]];
      destruct (keyId c), (apiKeyExpiresAt c); reflexivity.
  - reflexivity.
  - reflexivity.
  - apply lookup_insert_eq.
  - exact Hid.
  - exact Hsecret.
Qed.

Lemma login_then_getApiKey_witness :
  let key := "ask_live_abc123_s3cret" in
  let p := example_process (example_world ∅ ∅ (Some ∅) (fun _ => key_accepted)) ["nope"; key] in
  exists p',
    login_action p = (Returned tt, p') /\
    fst (getApiKey (world p')) = Ok (Some key).
Proof.
  intros key p.
  apply (login_then_getApiKey p key [] (mkKeyParts "abc123" "s3cret")
           (mkTestResult true (Some (JString "2026-01-02T00:00:00.000Z")))
           (example_config None None) ∅).
  - reflexivity.
  - reflexivity.
  - reflexivity.
  - discriminate.
  - discriminate.
  - vm_compute. reflexivity.
  - reflexivity.
  - right. exists "2026-01-02T00:00:00.000Z". reflexivity.
  - reflexivity.
  - reflexivity.
  - reflexivity.
  - intros content. vm_compute. discriminate.
  - reflexivity.
Defined.

(** X25: login does not repair a config file that cannot be loaded, and it
    is not atomic.  With a working vault and an accepted key, the secret is
    stored in the vault first; the config then fails to load, the command
    prints the load error and exits with code 1, and the file system is
    left as it was. *)
Theorem login_with_unreadable_config (p : Process) (apiKey : string) (rest : list string)
    (parsed : KeyParts) (r : TestResult) (vault : gmap (string * string) string)
    (reason : string) :
  open_fails p = None ->
  first_valid validate_key (typed p) = Some (apiKey, rest) ->
  parseApiKey apiKey = Some parsed ->
  parts_keySecret parsed <> "" ->
  fst (testApiKey apiKey (world p)) = Ok r ->
  valid r = true ->
  available (world p) = true ->
  keytar (world p) = Some vault ->
  fst (loadConfig (world p)) = Throw (JsError reason) ->
  exists p' shown,
    login_action p = (Exited 1, p') /\
    terminal p' = ConsoleError ("❌ " +:+ reason) :: shown /\
    keytar (world p')
    = Some (<[(SERVICE_NAME, KEY_NAME) := parts_keySecret parsed]> vault) /\
    fs (world p') = fs (world p).
Proof.
  intros Hopen Hv Hparse Hsecret Htest Hvalid Hav Hvault Hload.
  unfold login_action, cmd_try_catch, printInfo, printError, printWarning, printSuccess,
    chalk_red, chalk_blue, chalk_yellow, chalk_green.
  rewrite cmd_bind_show, cmd_bind_open. proj. rewrite Hopen.
  rewrite cmd_bind_prompt. proj. rewrite Hv, Hparse.
  rewrite cmd_bind_ret, cmd_bind_show, cmd_bind_lift. proj.
  destruct (testApiKey_world apiKey (world p)) as (r' & Hr).
  rewrite Hr in Htest. injection Htest as ->. rewrite Hr, Hvalid. cbn [negb].
  rewrite cmd_bind_ret, cmd_bind_lift. proj.
  match goal with
  | |- context [isKeychainAvailable ?w] =>
      destruct (isKeychainAvailable_world w) as (t2 & ->);
      change (available w) with (available (world p))
  end.
  rewrite Hav.
  rewrite cmd_bind_assoc, cmd_bind_lift. proj.
  match goal with
  | |- context [storeApiKeySecret ?s ?w] =>
      destruct (storeApiKeySecret_world w vault s) as (t3 & ->);
      [reflexivity|exact Hvault|exact Hsecret|]
  end.
  rewrite cmd_bind_show, cmd_bind_lift. proj.
  match goal with
  | |- context [loadConfig ?w] =>
      destruct (loadConfig_world w) as (t4 & Hw4);
      pose proof (loadConfig_machine w (world p) eq_refl eq_refl eq_refl eq_refl) as Hl4;
      destruct (loadConfig w) as [c4 w4]; simpl in Hw4, Hl4; subst w4;
      rewrite Hl4, Hload
  end.
  rewrite cmd_bind_show. unfold process_exit. proj.
  eexists. eexists. split; [reflexivity|]. proj.
  split; [reflexivity|]. split; reflexivity.
Qed.

Lemma login_with_unreadable_config_witness :
  let key := "ask_live_abc123_s3cret" in
  let w := example_world ∅ {[ example_path := File "{ keyId: abc" ]} (Some ∅)
             (fun _ => key_accepted) in
  exists p' shown,
    login_action (example_process w [key]) = (Exited 1, p') /\
    terminal p' = ConsoleError ("❌ " +:+ "Failed to load config: Unexpected token in JSON")
                    :: shown /\
    keytar (world p') = Some (<[(SERVICE_NAME, KEY_NAME) := "s3cret"]> ∅) /\
    fs (world p') = fs w.
Proof.
  intros key w.
  apply (login_with_unreadable_config (example_process w [key]) key []
           (mkKeyParts "abc123" "s3cret")
           (mkTestResult true (Some (JString "2026-01-02T00:00:00.000Z"))) ∅
           "Failed to load config: Unexpected token in JSON").
  - reflexivity.
  - reflexivity.
  - reflexivity.
  - discriminate.
  - vm_compute. reflexivity.
  - reflexivity.
  - reflexivity.
  - reflexivity.
  - vm_compute. reflexivity.
Defined.
